(** * Proof-of-work evaluation core of hoosatd (package [pow])

    A shallow embedding of [domain/consensus/utils/pow/pow.go] and the
    properties of its work-value pipeline.

    Conventions of the embedding:
    - Go's [uint64], [uint32] and [int] are [Z] with the wrap-around written
      at every operation that can overflow;
    - a [byte] is [Byte.byte], a slice [[]byte] is [list byte], a fixed array
      [[n]byte] is [vec byte n] (so that its length is known from the type);
    - [*big.Int] is [Z];
    - a run-time panic raised by an operation of this file (short slice,
      slice-to-array conversion, index out of range) is [None] in the
      [option] monad.

    After package [pow] come [subnetworks.Less] and the helpers of package
    [rpc] that turn a transaction into its JSON objects; the functions of
    the packages around them are fields of type classes. *)

From Stdlib Require Import ZArith Lia.
From Stdlib Require Import Init.Byte Strings.Byte Strings.String Strings.Ascii.
From stdpp Require Import base option list vector functions strings gmap.

Local Open Scope Z_scope.

(** ** Bytes *)

Definition byte_to_Z (b : byte) : Z := Z.of_N (Byte.to_N b).

(** Go's conversion [byte(x)] of an unsigned integer: the low eight bits. *)
Definition byte_of_Z (z : Z) : byte :=
  default x00 (Byte.of_N (Z.to_N (z mod 256))).

(** ** Machine integers *)

Definition wrap32 (z : Z) : Z := z mod 2 ^ 32.
Definition wrap64 (z : Z) : Z := z mod 2 ^ 64.

(** Go's [int] on the 64-bit targets the node is built for: two's
    complement wrap-around into [-2^63, 2^63). *)
Definition wrap_int (z : Z) : Z := (z + 2 ^ 63) mod 2 ^ 64 - 2 ^ 63.

Definition uint64_range (z : Z) : Prop := 0 <= z < 2 ^ 64.
Definition int_range (z : Z) : Prop := - 2 ^ 63 <= z < 2 ^ 63.

(** ** Package [encoding/binary] *)

Module binary.

(** Big-endian value of a byte string, the common core of the decoders
    and of [big.Int.SetBytes]. *)
Definition be_value (b : list byte) : Z :=
  foldl (fun acc x => acc * 256 + byte_to_Z x) 0 b.

Definition le_value (b : list byte) : Z :=
  foldr (fun x acc => byte_to_Z x + 256 * acc) 0 b.

(** The [n] low bytes of [v], least significant first. *)
Fixpoint le_bytes (n : nat) (v : Z) : list byte :=
  match n with
  | O => []
  | S n' => byte_of_Z v :: le_bytes n' (v / 256)
  end.

Definition be_bytes (n : nat) (v : Z) : list byte := reverse (le_bytes n v).

(** [binary.LittleEndian.Uint64(b)]: panics unless [len(b) >= 8]. *)
Definition LittleEndian_Uint64 (b : list byte) : option Z :=
  if decide (8 <= length b)%nat then Some (le_value (take 8 b)) else None.

(** [binary.BigEndian.Uint64(b)]: panics unless [len(b) >= 8]. *)
Definition BigEndian_Uint64 (b : list byte) : option Z :=
  if decide (8 <= length b)%nat then Some (be_value (take 8 b)) else None.

(** [binary.BigEndian.PutUint32(b, v)]: overwrites [b[0..4)], panics unless
    [len(b) >= 4]. *)
Definition BigEndian_PutUint32 (b : list byte) (v : Z) : option (list byte) :=
  if decide (4 <= length b)%nat then Some (be_bytes 4 v ++ drop 4 b) else None.

(** [binary.LittleEndian.PutUint64(b, v)]: overwrites [b[0..8)], panics
    unless [len(b) >= 8]. *)
Definition LittleEndian_PutUint64 (b : list byte) (v : Z) : option (list byte) :=
  if decide (8 <= length b)%nat then Some (le_bytes 8 v ++ drop 8 b) else None.

End binary.

(** ** Fixed-size arrays *)

(** Go's conversion of a slice [s] to a pointer to an array of [n] bytes:
    it panics when [len(s) < n] and otherwise views the first [n] elements. *)
Fixpoint slice_to_array (n : nat) (s : list byte) : option (vec byte n) :=
  match n with
  | O => Some [#]
  | S n' =>
      match s with
      | [] => None
      | x :: s' => vcons x <$> slice_to_array n' s'
      end
  end.

(** Filling an array from a slice, zero bytes where the slice is short
    (Go's [copy(arr[:], s)] into a fresh array). *)
Fixpoint array_copy (n : nat) (s : list byte) : vec byte n :=
  match n with
  | O => [#]
  | S n' =>
      match s with
      | [] => vcons x00 (array_copy n' [])
      | x :: s' => vcons x (array_copy n' s')
      end
  end.

(** ** Package [crypto/sha256]

    [sha256.Sum256] of Go's standard library, written after FIPS 180-4 on
    32-bit words; the test vectors of the standard are checked below. *)

Module sha256.

Definition mask32 : Z := 0xffffffff.
Definition add32 (x y : Z) : Z := Z.land (x + y) mask32.
Definition rotr (n x : Z) : Z :=
  Z.lor (Z.shiftr x n) (Z.land (Z.shiftl x (32 - n)) mask32).
Definition not32 (x : Z) : Z := Z.lxor x mask32.

Definition Ch (x y z : Z) : Z := Z.lxor (Z.land x y) (Z.land (not32 x) z).
Definition Maj (x y z : Z) : Z :=
  Z.lxor (Z.lxor (Z.land x y) (Z.land x z)) (Z.land y z).
Definition bsig0 (x : Z) : Z := Z.lxor (Z.lxor (rotr 2 x) (rotr 13 x)) (rotr 22 x).
Definition bsig1 (x : Z) : Z := Z.lxor (Z.lxor (rotr 6 x) (rotr 11 x)) (rotr 25 x).
Definition ssig0 (x : Z) : Z := Z.lxor (Z.lxor (rotr 7 x) (rotr 18 x)) (Z.shiftr x 3).
Definition ssig1 (x : Z) : Z := Z.lxor (Z.lxor (rotr 17 x) (rotr 19 x)) (Z.shiftr x 10).

(** The first [count] primes, by trial division against the primes found
    so far (kept largest first). *)
Fixpoint primes_loop (fuel count : nat) (candidate : Z) (found : list Z)
    : list Z :=
  match fuel, count with
  | O, _ | _, O => reverse found
  | S fuel', S count' =>
      if forallb (fun q => negb (candidate mod q =? 0)) found
      then primes_loop fuel' count' (candidate + 1) (candidate :: found)
      else primes_loop fuel' count (candidate + 1) found
  end.

Definition first_primes (count : nat) : list Z := primes_loop 400 count 2 [].

(** Integer cube root by bisection on the bits of the root. *)
Fixpoint cbrt_bits (bits : nat) (x root : Z) : Z :=
  match bits with
  | O => root
  | S b =>
      let c := root + 2 ^ Z.of_nat b in
      if c * c * c <=? x then cbrt_bits b x c else cbrt_bits b x root
  end.

(** The round constants: the first 32 bits of the fractional parts of the
    cube roots of the first 64 primes. *)
Definition K : list Z :=
  Eval vm_compute in
    (fun q => Z.land (cbrt_bits 40 (q * 2 ^ 96) 0) mask32) <$> first_primes 64.

(** The initial hash value: the first 32 bits of the fractional parts of
    the square roots of the first 8 primes. *)
Definition init : list Z :=
  Eval vm_compute in
    (fun q => Z.land (Z.sqrt (q * 2 ^ 64)) mask32) <$> first_primes 8.

(** Message padding: a one bit, zero bytes up to 56 modulo 64, and the bit
    length as a big-endian 64-bit word. *)
Definition pad (msg : list byte) : list byte :=
  let len := Z.of_nat (length msg) in
  msg ++ [x80] ++ replicate (Z.to_nat ((55 - len) mod 64)) x00
      ++ binary.be_bytes 8 (wrap64 (8 * len)).

(** The words of a block, [count] of them. *)
Fixpoint words (count : nat) (b : list byte) : list Z :=
  match count with
  | O => []
  | S c => binary.be_value (take 4 b) :: words c (drop 4 b)
  end.

(** Message schedule, kept most recent word first: [w] holds
    [W_{t-1}, W_{t-2}, ...]. *)
Fixpoint schedule (steps : nat) (w : list Z) : list Z :=
  match steps with
  | O => w
  | S s =>
      let at_ i := default 0 (w !! i) in
      let wt := add32 (add32 (add32 (ssig1 (at_ 1%nat)) (at_ 6%nat))
                             (ssig0 (at_ 14%nat))) (at_ 15%nat) in
      schedule s (wt :: w)
  end.

Definition round (st : list Z) (kw : Z * Z) : list Z :=
  match st with
  | [a; b; c; d; e; f; g; h] =>
      let t1 := add32 (add32 (add32 (add32 h (bsig1 e)) (Ch e f g)) kw.1) kw.2 in
      let t2 := add32 (bsig0 a) (Maj a b c) in
      [add32 t1 t2; a; b; c; add32 d t1; e; f; g]
  | _ => st
  end.

Definition compress (h : list Z) (block : list byte) : list Z :=
  let w := reverse (schedule 48 (reverse (words 16 block))) in
  zip_with add32 h (foldl round h (zip K w)).

Fixpoint blocks (count : nat) (h : list Z) (m : list byte) : list Z :=
  match count with
  | O => h
  | S c => blocks c (compress h (take 64 m)) (drop 64 m)
  end.

Definition digest (msg : list byte) : list byte :=
  let m := pad msg in
  let h := blocks (length m / 64) init m in
  mjoin (binary.be_bytes 4 <$> h).

Definition Sum256 (msg : list byte) : vec byte 32 := array_copy 32 (digest msg).

End sha256.

(** Hexadecimal rendering of a byte string, for test vectors. *)
Definition hex_digit (n : Z) : ascii :=
  ascii_of_nat (Z.to_nat (if n <? 10 then 48 + n else 87 + n)).

Fixpoint hex (b : list byte) : string :=
  match b with
  | [] => EmptyString
  | x :: b' =>
      String (hex_digit (byte_to_Z x / 16))
        (String (hex_digit (byte_to_Z x mod 16)) (hex b'))
  end.

Definition bytes_of_string (s : string) : list byte :=
  (fun c => byte_of_Z (Z.of_nat (nat_of_ascii c))) <$> list_ascii_of_string s.

(** ** Package [math/big] *)

Module big.

(** [new(big.Int).SetBytes(buf)]: [buf] read as a big-endian unsigned
    integer. *)
Definition SetBytes (buf : list byte) : Z := binary.be_value buf.

(** [x.BitLen()]: the length of the absolute value in bits, 0 for 0. *)
Definition BitLen (x : Z) : Z :=
  if Z.abs x =? 0 then 0 else Z.log2 (Z.abs x) + 1.

Fixpoint bytes_loop (fuel : nat) (x : Z) (acc : list byte) : list byte :=
  match fuel with
  | O => acc
  | S f =>
      if x <=? 0 then acc else bytes_loop f (x / 256) (byte_of_Z x :: acc)
  end.

(** [x.Bytes()]: the absolute value as a big-endian byte slice without
    leading zero bytes (empty for 0). *)
Definition Bytes (x : Z) : list byte :=
  bytes_loop (Z.to_nat (BitLen x)) (Z.abs x) [].

(** [x.Cmp(y)]: -1, 0 or +1. *)
Definition Cmp (x y : Z) : Z :=
  match x ?= y with
  | Lt => -1
  | Eq => 0
  | Gt => 1
  end.

(** [x.Mul(x, y)]. *)
Definition Mul (x y : Z) : Z := x * y.

(** [x.Mod(x, m)]: Euclidean modulus; a zero modulus panics. *)
Definition Mod (x m : Z) : option Z :=
  if m =? 0 then None else Some (x mod Z.abs m).

Definition digit_value (c : ascii) : option Z :=
  let n := Z.of_nat (nat_of_ascii c) in
  if (48 <=? n) && (n <=? 57) then Some (n - 48)
  else if (97 <=? n) && (n <=? 102) then Some (n - 87)
  else if (65 <=? n) && (n <=? 70) then Some (n - 55)
  else None.

Fixpoint digits16 (s : string) (acc : Z) : option Z :=
  match s with
  | EmptyString => Some acc
  | String c s' => d ← digit_value c; digits16 s' (acc * 16 + d)
  end.

(** [new(big.Int).SetString(s, 16)]: an optional sign and at least one
    hexadecimal digit; [None] is the [ok == false] result, which leaves a
    nil pointer in the caller's variable. *)
Definition SetString16 (s : string) : option Z :=
  match s with
  | EmptyString => None
  | String "+" (String c s') => digits16 (String c s') 0
  | String "-" (String c s') => Z.opp <$> digits16 (String c s') 0
  | _ => digits16 s 0
  end.

End big.

(** ** Counting loops *)

(** [for i := start; i < start + count; i++ { s = body(i, s) }] where the
    body can panic. *)
Fixpoint for_range {St : Type} (start count : nat)
    (body : nat -> St -> option St) (s : St) : option St :=
  match count with
  | O => Some s
  | S c => s' ← body start s; for_range (S start) c body s'
  end.

(** The same loop with a body that cannot panic. *)
Fixpoint for_pure {St : Type} (start count : nat)
    (body : nat -> St -> St) (s : St) : St :=
  match count with
  | O => s
  | S c => for_pure (S start) c body (body start s)
  end.

(** [s[i:]] panics when [i > len(s)]. *)
Definition slice_from (i : nat) (s : list byte) : option (list byte) :=
  if decide (i <= length s)%nat then Some (drop i s) else None.

(** ** Package [externalapi] *)

Module externalapi.

(** Modelled from the spec: [externalapi.DomainHash], the 32-byte digest
    type of the node (data model, Digest), as a 32-byte array. *)
Definition DomainHash : Type := vec byte 32.

(** Modelled from the spec: [hash.ByteSlice()], the bytes of the digest as
    a fresh slice that the caller may overwrite. *)
Definition ByteSlice (h : DomainHash) : list byte := vec_to_list h.

(** Modelled from the spec: [externalapi.NewDomainHashFromByteArray], the
    digest holding a copy of the given 32-byte array. *)
Definition NewDomainHashFromByteArray (a : vec byte 32) : DomainHash := a.

(** Modelled from the spec: the interface [externalapi.MutableBlockHeader]
    (external interfaces, header contract), as far as this package uses it:
    get and set of the timestamp and of the nonce, the compact bits and the
    direct parents, with what a get returns after a set. *)
Class MutableBlockHeader (H : Type) := {
  Bits : H -> Z;
  TimeInMilliseconds : H -> Z;
  Nonce : H -> Z;
  DirectParents : H -> list DomainHash;
  SetTimeInMilliseconds : Z -> H -> H;
  SetNonce : Z -> H -> H;
  time_SetTime : forall t h, TimeInMilliseconds (SetTimeInMilliseconds t h) = t;
  time_SetNonce : forall n h, TimeInMilliseconds (SetNonce n h) = TimeInMilliseconds h;
  nonce_SetNonce : forall n h, Nonce (SetNonce n h) = n;
  nonce_SetTime : forall t h, Nonce (SetTimeInMilliseconds t h) = Nonce h
}.

End externalapi.

Import externalapi (DomainHash, MutableBlockHeader).

(** Modelled from the spec: [consensushashing.HeaderHash], the pure hash
    of a header's fields, left abstract. *)
Class HeaderHasher (H : Type) := HeaderHash : H -> DomainHash.

(** Modelled from the spec: the collaborators of the package that live
    elsewhere in the node, each left abstract with the signature the spec
    gives it: the matrix transform ([generateMatrix], [bHeavyHash],
    [HoohashMatrixMultiplication]), the hash functions behind the two hash
    writers, BLAKE2b-512, the fixed-width serialization of 8-byte integers
    and the compact-target decoder. *)
Class Collaborators := {
  matrix : Type;
  generateMatrix : DomainHash -> matrix;
  bHeavyHash : matrix -> DomainHash -> DomainHash;
  HoohashMatrixMultiplication : matrix -> DomainHash -> list byte;
  PoWHash : list byte -> DomainHash;
  Blake3Hash : list byte -> DomainHash;
  blake2b_Sum512 : list byte -> vec byte 64;
  serialize_int64 : Z -> list byte;
  serialize_uint64 : Z -> list byte;
  CompactToBig : Z -> Z
}.

(** ** Package [hashes]: hash writers *)

Module hashes.

(** Modelled from the spec: a hash writer of package [hashes] takes
    infallible streaming writes and [Finalize] yields the 32-byte digest of
    everything written, in order. *)
Record HashWriter := {
  hasher : list byte -> DomainHash;
  written : list byte
}.

Definition InfallibleWrite (w : HashWriter) (p : list byte) : HashWriter :=
  {| hasher := hasher w; written := written w ++ p |}.

Definition Finalize (w : HashWriter) : DomainHash := hasher w (written w).

End hashes.

(** ** Package [pow] *)

Section pow.

Context {collab : Collaborators}.
Context {H : Type} {mutableHeader : MutableBlockHeader H}.
Context {headerHasher : HeaderHasher H}.

(** Modelled from the spec: [serialization.WriteElement] of an 8-byte
    integer into a hash writer writes the fixed-width encoding; a write into
    a hash writer never fails, so the error is always nil. *)
Definition WriteElement_int64 (w : hashes.HashWriter) (v : Z)
    : hashes.HashWriter * option unit :=
  (hashes.InfallibleWrite w (serialize_int64 v), None).

Definition WriteElement_uint64 (w : hashes.HashWriter) (v : Z)
    : hashes.HashWriter * option unit :=
  (hashes.InfallibleWrite w (serialize_uint64 v), None).

Definition PoWHashWriter : hashes.HashWriter :=
  {| hashes.hasher := PoWHash; hashes.written := [] |}.

Definition Blake3HashWriter : hashes.HashWriter :=
  {| hashes.hasher := Blake3Hash; hashes.written := [] |}.

Definition tableSize : Z := Z.shiftl 1 20.

(** The package-level array [lookupTable [tableSize]uint64], given by its
    content at each index; every access of the program is at an index
    below [tableSize] (a [range] over the array, or a value reduced modulo
    [tableSize]). *)
Definition LookupTable : Type := Z -> Z.

Definition generateHoohashLookupTable (lookupTable : LookupTable)
    : option LookupTable :=
  let seed := replicate 32 x00 in
  r ← for_range 0 (Z.to_nat tableSize)
        (fun i '(seed, lookupTable) =>
           seed ← binary.BigEndian_PutUint32 seed (wrap32 (Z.of_nat i));
           let hash := sha256.Sum256 seed in
           v ← binary.BigEndian_Uint64 (take 8 (vec_to_list hash));
           Some (seed, <[Z.of_nat i := v]> lookupTable))
        (seed, lookupTable);
  Some r.2.

Definition timeMemoryTradeoff (lookupTable : LookupTable) (input : Z) : Z :=
  let result := input in
  for_pure 0 1000
    (fun _ result =>
       let index := result mod tableSize in
       let result := Z.lxor result (lookupTable index) in
       Z.lor (wrap64 (Z.shiftl result 1)) (Z.shiftr result 63))
    result.

Record State := {
  mat : matrix;
  Timestamp : Z;
  Nonce : Z;
  Target : Z;
  prePowHash : DomainHash
}.

(** [NewState] works on the caller's header and on the package-level
    table; both are returned with the new state. *)
Definition NewState (header : H) (lookupTable : LookupTable)
    : option (State * H * LookupTable) :=
  let target := CompactToBig (externalapi.Bits header) in
  let timestamp := externalapi.TimeInMilliseconds header in
  let nonce := externalapi.Nonce header in
  let header := externalapi.SetTimeInMilliseconds 0 header in
  let header := externalapi.SetNonce 0 header in
  let prePowHash := HeaderHash header in
  let header := externalapi.SetTimeInMilliseconds timestamp header in
  let header := externalapi.SetNonce nonce header in
  lookupTable ← generateHoohashLookupTable lookupTable;
  Some ({| Target := target;
           prePowHash := prePowHash;
           mat := generateMatrix prePowHash;
           Timestamp := timestamp;
           Nonce := nonce |}, header, lookupTable).

Definition toBig (hash : DomainHash) : option Z :=
  let buf := externalapi.ByteSlice hash in
  let blen := length buf in
  buf ← for_range 0 (blen / 2)
          (fun i buf =>
             a ← buf !! i;
             b ← buf !! (blen - 1 - i)%nat;
             Some (<[(blen - 1 - i)%nat := a]> (<[i := b]> buf)))
          buf;
  Some (big.SetBytes buf).

(** The first lines of the three [CalculateProofOfWorkValue...] functions,
    which differ only in the hash writer: the message
    PRE_POW_HASH || TIME || 32 zero byte padding || NONCE is written to it.
    [None] is the panic on a write error. *)
Definition powMessage (writer : hashes.HashWriter) (state : State)
    : option hashes.HashWriter :=
  let writer := hashes.InfallibleWrite writer
                  (externalapi.ByteSlice (prePowHash state)) in
  let '(writer, err) := WriteElement_int64 writer (Timestamp state) in
  match err with
  | Some _ => None
  | None =>
      let zeroes := replicate 32 x00 in
      let writer := hashes.InfallibleWrite writer zeroes in
      let '(writer, err) := WriteElement_uint64 writer (Nonce state) in
      match err with
      | Some _ => None
      | None => Some writer
      end
  end.

Definition CalculateProofOfWorkValue (state : State) : option Z :=
  writer ← powMessage PoWHashWriter state;
  let powHash := hashes.Finalize writer in
  let hash := bHeavyHash (mat state) powHash in
  toBig hash.

Definition memorySize : Z := Z.shiftl 1 10.
Definition mhf_iterations : nat := 2.

(** The three loops of [memoryHardFunction], in order.  In the second one
    [hash] is the BLAKE2b-512 state: the bytes written to it so far, hashed
    by [Sum]. *)

(** Initialize memory. *)
Definition mhf_initialize (input : list byte) : option (list Z) :=
  let memory := replicate (Z.to_nat memorySize) 0 in
  for_range 0 (length memory)
    (fun i memory =>
       v ← binary.LittleEndian_Uint64 input;
       Some (<[i := v]> memory))
    memory.

(** Perform memory-hard computations. *)
Definition mhf_mix (memory : list Z) : option (list Z) :=
  for_range 0 mhf_iterations
    (fun _ memory =>
       for_range 0 (Z.to_nat memorySize)
         (fun j memory =>
            mj ← memory !! j;
            let index1 := mj mod memorySize in
            let index2 := Z.shiftr mj 32 mod memorySize in
            m1 ← memory !! Z.to_nat index1;
            m2 ← memory !! Z.to_nat index2;
            let hash := [] in
            let hash := hash ++ binary.le_bytes 8 m1 in
            let hash := hash ++ binary.le_bytes 8 m2 in
            v ← binary.LittleEndian_Uint64 (vec_to_list (blake2b_Sum512 hash));
            Some (<[j := v]> memory))
         memory)
    memory.

(** Combine results. *)
Definition mhf_combine (memory : list Z) : option (list byte) :=
  let result := replicate 64 x00 in
  for_range 0 8
    (fun i result =>
       mi ← memory !! i;
       dst ← slice_from (i * 8) result;
       dst ← binary.LittleEndian_PutUint64 dst mi;
       Some (take (i * 8) result ++ dst))
    result.

Definition memoryHardFunction (input : list byte) : option (list byte) :=
  memory ← mhf_initialize input;
  memory ← mhf_mix memory;
  mhf_combine memory.

Definition vdf_iterations : nat := 1000.

Definition verifiableDelayFunction (input : list byte) : option (list byte) :=
  let p := big.SetString16
    "FFFFFFFFFFFFFFFFFFFFFFFFFFFFFFFFFFFFFFFFFFFFFFFFFFFFFFFEFFFFFC2F" in
  let x := big.SetBytes input in
  x ← for_range 0 vdf_iterations
        (fun _ x =>
           let x := big.Mul x x in
           p ← p;
           big.Mod x p)
        x;
  let hash := sha256.Sum256 (big.Bytes x) in
  Some (vec_to_list hash).

Definition CalculateProofOfWorkValueHoohashRev2
    (lookupTable : LookupTable) (state : State) : option Z :=
  writer ← powMessage Blake3HashWriter state;
  let powHash := hashes.Finalize writer in
  memoryHardResult ← memoryHardFunction (externalapi.ByteSlice powHash);
  w ← binary.BigEndian_Uint64 memoryHardResult;
  let tradeoffResult := timeMemoryTradeoff lookupTable w in
  vdfResult ← verifiableDelayFunction memoryHardResult;
  let combined := memoryHardResult ++ vdfResult in
  let combined := combined ++ [byte_of_Z tradeoffResult] in
  arr ← slice_to_array 32 combined;
  let multiplied := HoohashMatrixMultiplication (mat state)
                      (externalapi.NewDomainHashFromByteArray arr) in
  let secondPass := Blake3HashWriter in
  let secondPass := hashes.InfallibleWrite secondPass multiplied in
  toBig (hashes.Finalize secondPass).

Definition CalculateProofOfWorkValueHoohashRev1 (state : State) : option Z :=
  writer ← powMessage Blake3HashWriter state;
  let powHash := hashes.Finalize writer in
  let multiplied := HoohashMatrixMultiplication (mat state) powHash in
  let secondPass := Blake3HashWriter in
  let secondPass := hashes.InfallibleWrite secondPass multiplied in
  toBig (hashes.Finalize secondPass).

Definition IncrementNonce (state : State) : State :=
  {| mat := mat state;
     Timestamp := Timestamp state;
     Nonce := wrap64 (Nonce state + 1);
     Target := Target state;
     prePowHash := prePowHash state |}.

Definition CheckProofOfWork (state : State) : option bool :=
  powNum ← CalculateProofOfWorkValue state;
  Some (big.Cmp powNum (Target state) <=? 0).

Definition CheckProofOfWorkByBits (header : H) (lookupTable : LookupTable)
    : option (bool * H * LookupTable) :=
  r ← NewState header lookupTable;
  ok ← CheckProofOfWork r.1.1;
  Some (ok, r.1.2, r.2).

(** [header.ToMutable()] hands [NewState] a copy, so the caller's header
    is not touched; the table is. *)
Definition BlockLevel (header : H) (maxBlockLevel : Z)
    (lookupTable : LookupTable) : option (Z * LookupTable) :=
  if decide (length (externalapi.DirectParents header) = 0%nat) then
    Some (maxBlockLevel, lookupTable)
  else
    r ← NewState header lookupTable;
    proofOfWorkValue ← CalculateProofOfWorkValue r.1.1;
    let level := wrap_int (maxBlockLevel - big.BitLen proofOfWorkValue) in
    let level := if level <? 0 then 0 else level in
    Some (level, r.2).

End pow.

(** ** Reference values *)

(** The 32-byte buffer [generateHoohashLookupTable] hashes for index [i]:
    the big-endian 32-bit index and 28 bytes that stay zero. *)
Definition seed_of_index (i : Z) : list byte :=
  binary.be_bytes 4 i ++ replicate 28 x00.

(** The table entry as the code computes it: the leading 8 bytes of the
    SHA-256 of the 32-byte seed, read as a big-endian word. *)
Definition table_entry (i : Z) : Z :=
  binary.be_value (take 8 (vec_to_list (sha256.Sum256 (seed_of_index i)))).

(** The table entry in the words of the specification: the leading 8 bytes
    of the SHA-256 of the 4-byte big-endian encoding of the index. *)
Definition table_entry_of_4_bytes (i : Z) : Z :=
  binary.be_value (take 8 (vec_to_list (sha256.Sum256 (binary.be_bytes 4 i)))).

(** The digest 0x01 followed by 31 zero bytes. *)
Definition digest_one : DomainHash := vcons x01 (vreplicate 31 x00).

(** The digest of 31 zero bytes followed by 0x01. *)
Definition digest_one_last : DomainHash :=
  array_copy 32 (replicate 31 x00 ++ [x01]).

(** ** Loops over slices *)

(** [for i, x := range l { s = body(i, x, s) }], counting from [i]. *)
Fixpoint range_loop {A St : Type} (body : nat -> A -> St -> St)
    (i : nat) (l : list A) (s : St) : St :=
  match l with
  | [] => s
  | x :: l' => range_loop body (S i) l' (body i x s)
  end.

(** The same loop with a body that can panic. *)
Fixpoint range_loop_opt {A St : Type} (body : nat -> A -> St -> option St)
    (i : nat) (l : list A) (s : St) : option St :=
  match l with
  | [] => Some s
  | x :: l' => s' ← body i x s; range_loop_opt body (S i) l' s'
  end.

(** ** Package [bytes] *)

Module bytes.

(** [bytes.Compare(a, b)]: lexicographic comparison, -1, 0 or +1. *)
Fixpoint Compare (a b : list byte) : Z :=
  match a, b with
  | [], [] => 0
  | [], _ :: _ => -1
  | _ :: _, [] => 1
  | x :: a', y :: b' =>
      if byte_to_Z x <? byte_to_Z y then -1
      else if byte_to_Z y <? byte_to_Z x then 1
      else Compare a' b'
  end.

End bytes.

(** ** Package [subnetworks]

    [externalapi.DomainSubnetworkID] is a byte array; its size [n] is the
    constant of another package and no line of [Less] reads it. *)

Module subnetworks.

Definition Less {n : nat} (a b : vec byte n) : bool :=
  bytes.Compare (vec_to_list a) (vec_to_list b) <? 0.

End subnetworks.

(** ** Package [rpc]

    The helpers of the RPC server that turn a transaction into its JSON
    objects.  The logger is state: the lines logged so far are passed in
    and out. *)

(** Go's conversion [int32(x)]: two's complement wrap-around. *)
Definition wrap_int32 (z : Z) : Z := (z + 2 ^ 31) mod 2 ^ 32 - 2 ^ 31.

Module rpc.

(** The named types of the packages around [rpc] ([daghash], [dagconfig],
    [txscript], [util], [blockdag]) and their [String] methods, each left
    abstract. *)
Class Names := {
  TxID : Type;
  TxID_String : TxID -> string;
  Hash : Type;
  Hash_String : Hash -> string;
  SubnetworkID : Type;
  SubnetworkID_String : SubnetworkID -> string;
  Params : Type;
  Address : Type;
  EncodeAddress : Address -> string;
  ScriptClass : Type;
  ScriptClass_String : ScriptClass -> string;
  TxIndex : Type;
  BlockDAG : Type;
  BlockHeader : Type
}.

Section rpc.

Context {names : Names}.

Record RPCError := { Code : Z; Message : string }.

Definition NewRPCError (code : Z) (message : string) : RPCError :=
  {| Code := code; Message := message |}.

(** [hex.EncodeToString]: two lower-case hexadecimal digits per byte. *)
Definition EncodeToString (b : list byte) : string := hex b.

Record OutPoint := { OutPoint_TxID : TxID; OutPoint_Index : Z }.

Record TxIn := {
  PreviousOutpoint : OutPoint;
  SignatureScript : list byte;
  TxIn_Sequence : Z
}.

Record TxOut := { TxOut_Value : Z; TxOut_ScriptPubKey : list byte }.

(** [wire.MsgTx], the fields this package reads. *)
Record MsgTx := {
  Version : Z;
  MsgTx_TxIn : list TxIn;
  MsgTx_TxOut : list TxOut;
  LockTime : Z;
  MsgTx_SubnetworkID : SubnetworkID;
  Gas : Z;
  MsgTx_PayloadHash : option Hash;
  MsgTx_Payload : list byte
}.

(** The functions of the packages around [rpc], each left abstract:
    [BtcEncode] gives what the encoder leaves in the buffer and the text of
    its error, if any; [TypeName] is what the verb [%T] prints;
    [TxHash_String] is [mtx.TxHash().String()]; [Timestamp_Unix] is
    [blkHeader.Timestamp.Unix()]. *)
Class Packages := {
  DisasmString : list byte -> string;
  ExtractScriptPubKeyAddress : list byte -> Params -> ScriptClass * option Address;
  ErrRPCInternal_Code : Z;
  maxProtocolVersion : Z;
  BtcEncode : MsgTx -> Z -> list byte * option string;
  TypeName : MsgTx -> string;
  TxHash_String : MsgTx -> string;
  SerializeSize : MsgTx -> Z;
  Timestamp_Unix : BlockHeader -> Z;
  BlockThatAcceptedTx : TxIndex -> BlockDAG -> TxID -> option Hash * option string;
  BlockConfirmationsByHash : BlockDAG -> Hash -> Z * option string
}.

Context {packages : Packages}.

Record ScriptSig := { ScriptSig_Asm : string; ScriptSig_Hex : string }.

Record Vin := {
  Vin_TxID : string;
  Vin_Vout : Z;
  Vin_Sequence : Z;
  Vin_ScriptSig : option ScriptSig
}.

Record ScriptPubKeyResult := {
  Asm : string;
  Hex : string;
  Type_ : string;
  Address_ : option string
}.

Record Vout := { Value : Z; N : Z; ScriptPubKey : ScriptPubKeyResult }.

(** The logger is the list of the lines logged so far. *)
Definition Log : Type := list string.

Definition internalRPCError (errStr context : string) (log : Log)
    : RPCError * Log :=
  let logStr := errStr in
  let logStr :=
    if negb (String.eqb context "") then context +:+ ": " +:+ errStr
    else logStr in
  let log := log ++ [logStr] in
  (NewRPCError ErrRPCInternal_Code errStr, log).

Definition messageToHex (msg : MsgTx) (log : Log)
    : string * option RPCError * Log :=
  let '(buf, err) := BtcEncode msg maxProtocolVersion in
  match err with
  | Some err =>
      let context := "Failed to encode msg of type " +:+ TypeName msg in
      let '(e, log) := internalRPCError err context log in
      (""%string, Some e, log)
  | None => (EncodeToString buf, None, log)
  end.

Definition createVinList (mtx : MsgTx) : option (list Vin) :=
  let vinList :=
    replicate (length (MsgTx_TxIn mtx))
      {| Vin_TxID := ""; Vin_Vout := 0; Vin_Sequence := 0; Vin_ScriptSig := None |} in
  range_loop_opt
    (fun i txIn vinList =>
       let disbuf := DisasmString (SignatureScript txIn) in
       vinEntry ← vinList !! i;
       let vinEntry :=
         {| Vin_TxID := TxID_String (OutPoint_TxID (PreviousOutpoint txIn));
            Vin_Vout := Vin_Vout vinEntry;
            Vin_Sequence := Vin_Sequence vinEntry;
            Vin_ScriptSig := Vin_ScriptSig vinEntry |} in
       let vinEntry :=
         {| Vin_TxID := Vin_TxID vinEntry;
            Vin_Vout := OutPoint_Index (PreviousOutpoint txIn);
            Vin_Sequence := Vin_Sequence vinEntry;
            Vin_ScriptSig := Vin_ScriptSig vinEntry |} in
       let vinEntry :=
         {| Vin_TxID := Vin_TxID vinEntry;
            Vin_Vout := Vin_Vout vinEntry;
            Vin_Sequence := TxIn_Sequence txIn;
            Vin_ScriptSig := Vin_ScriptSig vinEntry |} in
       let vinEntry :=
         {| Vin_TxID := Vin_TxID vinEntry;
            Vin_Vout := Vin_Vout vinEntry;
            Vin_Sequence := Vin_Sequence vinEntry;
            Vin_ScriptSig :=
              Some {| ScriptSig_Asm := disbuf;
                      ScriptSig_Hex := EncodeToString (SignatureScript txIn) |} |} in
       Some (<[i := vinEntry]> vinList))
    0 (MsgTx_TxIn mtx) vinList.

Definition createVoutList (mtx : MsgTx) (chainParams : Params)
    (filterAddrMap : gset string) : list Vout :=
  let voutList := [] in
  range_loop
    (fun i v voutList =>
       let disbuf := DisasmString (TxOut_ScriptPubKey v) in
       let '(scriptClass, addr) :=
         ExtractScriptPubKeyAddress (TxOut_ScriptPubKey v) chainParams in
       let passesFilter := bool_decide (size filterAddrMap = 0%nat) in
       let encodedAddr := None in
       let '(encodedAddr, passesFilter) :=
         match addr with
         | Some addr =>
             let encodedAddr := EncodeAddress addr in
             (Some encodedAddr,
              if bool_decide (encodedAddr ∈ filterAddrMap) then true
              else passesFilter)
         | None => (encodedAddr, passesFilter)
         end in
       if negb passesFilter then voutList
       else
         let vout :=
           {| N := wrap32 (Z.of_nat i);
              Value := TxOut_Value v;
              ScriptPubKey :=
                {| Address_ := encodedAddr;
                   Asm := disbuf;
                   Hex := EncodeToString (TxOut_ScriptPubKey v);
                   Type_ := ScriptClass_String scriptClass |} |} in
         voutList ++ [vout])
    0 (MsgTx_TxOut mtx) voutList.

Record TxRawResult := {
  Result_Hex : string;
  Result_TxID : string;
  Result_Hash : string;
  Result_Size : Z;
  Result_Vin : list Vin;
  Result_Vout : list Vout;
  Result_Version : Z;
  Result_LockTime : Z;
  Result_Subnetwork : string;
  Result_Gas : Z;
  Result_Mass : Z;
  Result_PayloadHash : string;
  Result_Payload : string;
  Result_Time : Z;
  Result_BlockTime : Z;
  Result_BlockHash : string;
  Result_Confirmations : option Z;
  Result_IsInMempool : bool;
  Result_AcceptedBy : option string
}.

Definition createTxRawResult (dagParams : Params) (mtx : MsgTx) (txID : string)
    (blkHeader : option BlockHeader) (blkHash : string)
    (acceptingBlock : option Hash) (confirmations : option Z)
    (isInMempool : bool) (txMass : Z) (log : Log)
    : option (option TxRawResult * option RPCError * Log) :=
  let '(mtxHex, err, log) := messageToHex mtx log in
  match err with
  | Some err => Some (None, Some err, log)
  | None =>
      let payloadHash := ""%string in
      let payloadHash :=
        match MsgTx_PayloadHash mtx with
        | Some h => Hash_String h
        | None => payloadHash
        end in
      vin ← createVinList mtx;
      let '(time, blockTime, blockHash) :=
        match blkHeader with
        | Some blkHeader =>
            (wrap64 (Timestamp_Unix blkHeader),
             wrap64 (Timestamp_Unix blkHeader), blkHash)
        | None => (0, 0, ""%string)
        end in
      let acceptedBy :=
        match acceptingBlock with
        | Some acceptingBlock => Some (Hash_String acceptingBlock)
        | None => None
        end in
      Some (Some {| Result_Hex := mtxHex;
                    Result_TxID := txID;
                    Result_Hash := TxHash_String mtx;
                    Result_Size := wrap_int32 (SerializeSize mtx);
                    Result_Vin := vin;
                    Result_Vout := createVoutList mtx dagParams ∅;
                    Result_Version := Version mtx;
                    Result_LockTime := LockTime mtx;
                    Result_Subnetwork := SubnetworkID_String (MsgTx_SubnetworkID mtx);
                    Result_Gas := Gas mtx;
                    Result_Mass := txMass;
                    Result_PayloadHash := payloadHash;
                    Result_Payload := EncodeToString (MsgTx_Payload mtx);
                    Result_Time := time;
                    Result_BlockTime := blockTime;
                    Result_BlockHash := blockHash;
                    Result_Confirmations := confirmations;
                    Result_IsInMempool := isInMempool;
                    Result_AcceptedBy := acceptedBy |},
            None, log)
  end.

Record Server := { cfg_TxIndex : option TxIndex; cfg_DAG : BlockDAG }.

Definition txConfirmations (s : Server) (txID : TxID) : Z * option string :=
  match cfg_TxIndex s with
  | None => (0, Some "transaction index must be enabled (--txindex)"%string)
  | Some txIndex =>
      let '(acceptingBlock, err) := BlockThatAcceptedTx txIndex (cfg_DAG s) txID in
      match err with
      | Some err =>
          (0, Some ("could not get block that accepted tx "
                    +:+ TxID_String txID +:+ ": " +:+ err))
      | None =>
          match acceptingBlock with
          | None => (0, None)
          | Some acceptingBlock =>
              let '(confirmations, err) :=
                BlockConfirmationsByHash (cfg_DAG s) acceptingBlock in
              match err with
              | Some err =>
                  (0, Some ("could not get confirmations for block that accepted tx "
                            +:+ TxID_String txID +:+ ": " +:+ err))
              | None => (confirmations, None)
              end
          end
      end
  end.

(** What [createVinList] writes for one input. *)
Definition vin_of (txIn : TxIn) : Vin :=
  {| Vin_TxID := TxID_String (OutPoint_TxID (PreviousOutpoint txIn));
     Vin_Vout := OutPoint_Index (PreviousOutpoint txIn);
     Vin_Sequence := TxIn_Sequence txIn;
     Vin_ScriptSig :=
       Some {| ScriptSig_Asm := DisasmString (SignatureScript txIn);
               ScriptSig_Hex := EncodeToString (SignatureScript txIn) |} |}.

(** What [createVoutList] appends for output [v] at index [i]. *)
Definition vout_of (chainParams : Params) (i : nat) (v : TxOut) : Vout :=
  {| N := wrap32 (Z.of_nat i);
     Value := TxOut_Value v;
     ScriptPubKey :=
       {| Address_ :=
            EncodeAddress
              <$> (ExtractScriptPubKeyAddress (TxOut_ScriptPubKey v) chainParams).2;
          Asm := DisasmString (TxOut_ScriptPubKey v);
          Hex := EncodeToString (TxOut_ScriptPubKey v);
          Type_ := ScriptClass_String
            (ExtractScriptPubKeyAddress (TxOut_ScriptPubKey v) chainParams).1 |} |}.

(** One entry for every output from index [i] on. *)
Fixpoint vouts_from (chainParams : Params) (i : nat) (outs : list TxOut)
    : list Vout :=
  match outs with
  | [] => []
  | v :: outs' => vout_of chainParams i v :: vouts_from chainParams (S i) outs'
  end.

(** An entry passes the filter when the filter is empty or holds the
    entry's address. *)
Definition passes (filterAddrMap : gset string) (vout : Vout) : bool :=
  bool_decide (size filterAddrMap = 0%nat)
  || match Address_ (ScriptPubKey vout) with
     | Some a => bool_decide (a ∈ filterAddrMap)
     | None => false
     end.

(** The outputs from index [i] on that pass the filter. *)
Fixpoint passing_from (chainParams : Params) (filterAddrMap : gset string)
    (i : nat) (outs : list TxOut) : list Vout :=
  match outs with
  | [] => []
  | v :: outs' =>
      (if passes filterAddrMap (vout_of chainParams i v)
       then [vout_of chainParams i v] else [])
      ++ passing_from chainParams filterAddrMap (S i) outs'
  end.

End rpc.

End rpc.

(** ** Test doubles

    Stand-ins for the collaborators, built from SHA-256 with one domain
    byte each, and a plain record for the header; they make every function
    above run on concrete inputs. *)

Module doubles.

Definition tagged (tag : byte) (m : list byte) : DomainHash :=
  sha256.Sum256 (tag :: m).

(** The compact form of a target: one exponent byte over a 23-bit
    mantissa and a sign bit. *)
Definition compact_to_big (compact : Z) : Z :=
  let mantissa := Z.land compact 0x007fffff in
  let exponent := Z.shiftr compact 24 in
  let magnitude :=
    if exponent <=? 3 then Z.shiftr mantissa (8 * (3 - exponent))
    else Z.shiftl mantissa (8 * (exponent - 3)) in
  if Z.land compact 0x00800000 =? 0 then magnitude else - magnitude.

#[export] Instance collaborators : Collaborators := {|
  matrix := DomainHash;
  generateMatrix := fun h => h;
  bHeavyHash := fun m h => tagged x01 (vec_to_list m ++ vec_to_list h);
  HoohashMatrixMultiplication :=
    fun m h => vec_to_list (tagged x02 (vec_to_list m ++ vec_to_list h));
  PoWHash := tagged x03;
  Blake3Hash := tagged x04;
  blake2b_Sum512 := fun m =>
    array_copy 64 (binary.le_bytes 8
      (Z.land (binary.le_value m * 6364136223846793005 + 1442695040888963407)
              0xffffffffffffffff));
  serialize_int64 := binary.le_bytes 8;
  serialize_uint64 := binary.le_bytes 8;
  CompactToBig := compact_to_big
|}.

Record header := {
  bits : Z;
  timeInMilliseconds : Z;
  nonce : Z;
  parents : list DomainHash
}.

#[export, refine] Instance mutable_header : MutableBlockHeader header := {|
  externalapi.Bits := bits;
  externalapi.TimeInMilliseconds := timeInMilliseconds;
  externalapi.Nonce := nonce;
  externalapi.DirectParents := parents;
  externalapi.SetTimeInMilliseconds := fun t h =>
    {| bits := bits h; timeInMilliseconds := t; nonce := nonce h;
       parents := parents h |};
  externalapi.SetNonce := fun n h =>
    {| bits := bits h; timeInMilliseconds := timeInMilliseconds h;
       nonce := n; parents := parents h |}
|}.
Proof. all: reflexivity. Defined.

#[export] Instance header_hasher : HeaderHasher header := fun h =>
  tagged x07 (binary.le_bytes 4 (bits h)
              ++ binary.le_bytes 8 (timeInMilliseconds h)
              ++ binary.le_bytes 8 (nonce h)
              ++ mjoin (vec_to_list <$> parents h)).

Definition zero_hash : DomainHash := vreplicate 32 x00.

Definition state0 : State := {|
  mat := generateMatrix zero_hash;
  Timestamp := 0;
  Nonce := 0;
  Target := 2 ^ 256 - 1;
  prePowHash := zero_hash
|}.

(** A state one increment away from the wrap-around of the nonce. *)
Definition state_last_nonce : State := {|
  mat := generateMatrix zero_hash;
  Timestamp := 0;
  Nonce := 2 ^ 64 - 1;
  Target := 2 ^ 256 - 1;
  prePowHash := zero_hash
|}.

(** [state0] with another target. *)
Definition state_with_target (target : Z) : State := {|
  mat := mat state0;
  Timestamp := Timestamp state0;
  Nonce := Nonce state0;
  Target := target;
  prePowHash := prePowHash state0
|}.

Definition header0 : header := {|
  bits := 0x207fffff;
  timeInMilliseconds := 1700000000000;
  nonce := 42;
  parents := [zero_hash]
|}.

End doubles.

(** Stand-ins for the packages around [rpc]: identifiers and addresses are
    their own text, a script of no bytes has no address, and the encoder
    writes the payload of the transaction. *)

Module rpc_doubles.

#[export] Instance names : rpc.Names := {|
  rpc.TxID := string;
  rpc.TxID_String := fun s => s;
  rpc.Hash := string;
  rpc.Hash_String := fun s => s;
  rpc.SubnetworkID := string;
  rpc.SubnetworkID_String := fun s => s;
  rpc.Params := unit;
  rpc.Address := string;
  rpc.EncodeAddress := fun s => s;
  rpc.ScriptClass := bool;
  rpc.ScriptClass_String := fun c =>
    if c then "pubkeyhash"%string else "nonstandard"%string;
  rpc.TxIndex := unit;
  rpc.BlockDAG := unit;
  rpc.BlockHeader := Z
|}.

#[export] Instance packages : rpc.Packages := {|
  rpc.DisasmString := hex;
  rpc.ExtractScriptPubKeyAddress := fun script _ =>
    match script with
    | [] => (false, None)
    | _ :: _ => (true, Some (hex script))
    end;
  rpc.ErrRPCInternal_Code := -32603;
  rpc.maxProtocolVersion := 1;
  rpc.BtcEncode := fun mtx _ =>
    match rpc.MsgTx_Payload mtx with
    | [] => ([], Some "empty payload"%string)
    | _ :: _ => (rpc.MsgTx_Payload mtx, None)
    end;
  rpc.TypeName := fun _ => "*wire.MsgTx"%string;
  rpc.TxHash_String := fun mtx => hex (rpc.MsgTx_Payload mtx);
  rpc.SerializeSize := fun mtx => Z.of_nat (length (rpc.MsgTx_Payload mtx));
  rpc.Timestamp_Unix := fun t => t;
  rpc.BlockThatAcceptedTx := fun _ _ _ => (None, None);
  rpc.BlockConfirmationsByHash := fun _ _ => (0, None)
|}.

(** A transaction of one input and three outputs: to the address ["aa"],
    to no address, to the address ["bb"]. *)
Definition tx0 : rpc.MsgTx := {|
  rpc.Version := 1;
  rpc.MsgTx_TxIn :=
    [ {| rpc.PreviousOutpoint :=
           {| rpc.OutPoint_TxID := "prev"%string; rpc.OutPoint_Index := 7 |};
         rpc.SignatureScript := [x51; x52];
         rpc.TxIn_Sequence := 2 ^ 64 - 1 |} ];
  rpc.MsgTx_TxOut :=
    [ {| rpc.TxOut_Value := 10; rpc.TxOut_ScriptPubKey := [xaa] |};
      {| rpc.TxOut_Value := 20; rpc.TxOut_ScriptPubKey := [] |};
      {| rpc.TxOut_Value := 30; rpc.TxOut_ScriptPubKey := [xbb] |} ];
  rpc.LockTime := 0;
  rpc.MsgTx_SubnetworkID := "native"%string;
  rpc.Gas := 0;
  rpc.MsgTx_PayloadHash := None;
  rpc.MsgTx_Payload := [x01; x02; x03]
|}.

End rpc_doubles.

(** ** Loop invariants and constants of the proofs *)

(** What the swap loop of [toBig] has done to [buf] after [i] rounds: the
    outer [i] positions on both sides hold the mirrored bytes of [l]. *)
Definition swapped (l : list byte) (i : nat) (buf : list byte) : Prop :=
  length buf = length l /\
  forall j, (j < length l)%nat ->
    buf !! j =
      if decide (j < i \/ length l - i <= j)%nat
      then l !! (length l - 1 - j)%nat else l !! j.

(** State of the table loop before round [i]: the tail of the seed is
    still zero and the entries below [i] are written. *)
Definition table_filled (tbl : LookupTable) (i : nat)
    (st : list byte * LookupTable) : Prop :=
  length st.1 = 32%nat /\
  drop 4 st.1 = replicate 28 x00 /\
  forall k, st.2 k = if decide (0 <= k < Z.of_nat i) then table_entry k else tbl k.

(** The modulus of [verifiableDelayFunction] and one round of its loop. *)
Definition vdf_prime : Z := 2 ^ 256 - 2 ^ 32 - 977.

Definition vdf_round (x : Z) : Z := (x * x) mod vdf_prime.

(** The concatenation of the 8-byte little-endian encodings of words. *)
Fixpoint words_le (ws : list Z) : list byte :=
  match ws with
  | [] => []
  | w :: ws' => binary.le_bytes 8 w ++ words_le ws'
  end.

(** * Properties *)

(** ** Bytes and byte strings *)

Lemma byte_to_Z_range (b : byte) : 0 <= byte_to_Z b < 256.
Proof.
  unfold byte_to_Z. pose proof (Byte.to_N_bounded b) as Hb. lia.
Qed.

Lemma byte_to_of_Z (z : Z) : byte_to_Z (byte_of_Z z) = z mod 256.
Proof.
  unfold byte_to_Z, byte_of_Z.
  assert (Hr : 0 <= z mod 256 < 256) by (apply Z.mod_pos_bound; lia).
  destruct (Byte.of_N (Z.to_N (z mod 256))) as [b|] eqn:Hb; simpl.
  - apply Byte.to_of_N in Hb. rewrite Hb. lia.
  - apply Byte.of_N_None_iff in Hb. lia.
Qed.

Lemma byte_of_to_Z (b : byte) : byte_of_Z (byte_to_Z b) = b.
Proof.
  pose proof (byte_to_Z_range b) as Hr.
  unfold byte_of_Z. rewrite Z.mod_small by lia.
  unfold byte_to_Z. rewrite N2Z.id, Byte.of_to_N. reflexivity.
Qed.

Lemma be_value_snoc (l : list byte) (x : byte) :
  binary.be_value (l ++ [x]) = binary.be_value l * 256 + byte_to_Z x.
Proof. unfold binary.be_value. rewrite foldl_snoc. reflexivity. Qed.

Lemma be_value_reverse (l : list byte) :
  binary.be_value (reverse l) = binary.le_value l.
Proof.
  induction l as [|x l IH]; [reflexivity|].
  rewrite reverse_cons, be_value_snoc, IH. simpl. lia.
Qed.

Lemma le_value_bound (l : list byte) :
  0 <= binary.le_value l < 256 ^ Z.of_nat (length l).
Proof.
  induction l as [|x l IH]; simpl; [lia|].
  pose proof (byte_to_Z_range x).
  rewrite Nat2Z.inj_succ, Z.pow_succ_r by lia. lia.
Qed.

Lemma be_value_bound (l : list byte) :
  0 <= binary.be_value l < 256 ^ Z.of_nat (length l).
Proof.
  rewrite <- (reverse_involutive l) at 1 2.
  rewrite be_value_reverse, <- (length_reverse l). apply le_value_bound.
Qed.

Lemma length_le_bytes (n : nat) (v : Z) : length (binary.le_bytes n v) = n.
Proof. revert v. induction n as [|n IH]; intros v; simpl; [|rewrite IH]; reflexivity. Qed.

Lemma length_be_bytes (n : nat) (v : Z) : length (binary.be_bytes n v) = n.
Proof. unfold binary.be_bytes. rewrite length_reverse. apply length_le_bytes. Qed.

Lemma le_value_le_bytes (n : nat) (v : Z) :
  binary.le_value (binary.le_bytes n v) = v mod 256 ^ Z.of_nat n.
Proof.
  revert v. induction n as [|n IH]; intros v.
  - simpl. rewrite Z.mod_1_r. reflexivity.
  - cbn [binary.le_bytes binary.le_value foldr].
    fold (binary.le_value (binary.le_bytes n (v / 256))).
    rewrite IH, byte_to_of_Z, Nat2Z.inj_succ, Z.pow_succ_r by lia.
    rewrite Z.rem_mul_r by lia. reflexivity.
Qed.

Lemma be_value_be_bytes (n : nat) (v : Z) :
  binary.be_value (binary.be_bytes n v) = v mod 256 ^ Z.of_nat n.
Proof. unfold binary.be_bytes. rewrite be_value_reverse. apply le_value_le_bytes. Qed.

(** ** Fixed-size arrays *)

Lemma slice_to_array_take (n : nat) (s : list byte) (a : vec byte n) :
  slice_to_array n s = Some a -> vec_to_list a = take n s.
Proof.
  revert s a. induction n as [|n IH]; intros s a.
  - intros [= <-]. reflexivity.
  - destruct s as [|x s]; [discriminate|]. simpl.
    destruct (slice_to_array n s) as [a'|] eqn:Ha; [|discriminate].
    intros [= <-]. simpl. f_equal. apply IH, Ha.
Qed.

Lemma slice_to_array_is_Some (n : nat) (s : list byte) :
  (n <= length s)%nat -> is_Some (slice_to_array n s).
Proof.
  revert s. induction n as [|n IH]; intros s Hn; [eexists; reflexivity|].
  destruct s as [|x s]; simpl in *; [lia|].
  destruct (IH s) as [a Ha]; [lia|]. rewrite Ha. eexists; reflexivity.
Qed.

Lemma slice_to_array_None (n : nat) (s : list byte) :
  (length s < n)%nat -> slice_to_array n s = None.
Proof.
  revert s. induction n as [|n IH]; intros s Hn; [lia|].
  destruct s as [|x s]; simpl in *; [reflexivity|].
  rewrite IH by lia. reflexivity.
Qed.

Lemma slice_to_array_app (n : nat) (s t : list byte) (a : vec byte n) :
  slice_to_array n s = Some a -> slice_to_array n (s ++ t) = Some a.
Proof.
  revert s a. induction n as [|n IH]; intros s a; [auto|].
  destruct s as [|x s]; [discriminate|]. simpl.
  destruct (slice_to_array n s) as [a'|] eqn:Ha; [|discriminate].
  intros [= <-]. rewrite (IH _ _ Ha). reflexivity.
Qed.

(** ** Loops *)

(** A loop whose body keeps an invariant (and does not panic while it
    holds) runs to completion and ends in the invariant. *)
Lemma for_range_invariant {St : Type} (P : nat -> St -> Prop)
    (body : nat -> St -> option St) (count start : nat) (s : St) :
  P start s ->
  (forall i s, (start <= i < start + count)%nat -> P i s ->
     exists s', body i s = Some s' /\ P (S i) s') ->
  exists s', for_range start count body s = Some s' /\ P (start + count)%nat s'.
Proof.
  revert start s. induction count as [|count IH]; intros start s HP Hbody.
  - exists s. rewrite Nat.add_0_r. auto.
  - destruct (Hbody start s) as (s1 & Hs1 & HP1); [lia|assumption|].
    destruct (IH (S start) s1) as (s2 & Hs2 & HP2); [assumption| |].
    + intros i t Hi. apply Hbody. lia.
    + exists s2. simpl. rewrite Hs1. simpl.
      replace (start + S count)%nat with (S start + count)%nat by lia. auto.
Qed.

(** Running a step that is known to succeed. *)
Lemma bind_eq {A B : Type} (m : option A) (f : A -> option B) (x : A)
    (y : option B) :
  m = Some x -> f x = y -> m ≫= f = y.
Proof. intros -> <-. reflexivity. Qed.

Lemma for_range_ext {St : Type} (f g : nat -> St -> option St)
    (count start : nat) (s : St) :
  (forall i s, f i s = g i s) ->
  for_range start count f s = for_range start count g s.
Proof.
  intros Hfg. revert start s. induction count as [|count IH]; intros start s.
  - reflexivity.
  - simpl. rewrite Hfg. destruct (g start s); simpl; auto.
Qed.

(** ** Package [pow] *)

Section pow_properties.

Context {collab : Collaborators}.
Context {H : Type} {mutableHeader : MutableBlockHeader H}.
Context {headerHasher : HeaderHasher H}.

#[local] Opaque sha256.Sum256.

(** *** [toBig] *)

Lemma swapped_step (l buf : list byte) (i : nat) :
  (i < length l / 2)%nat -> swapped l i buf ->
  exists buf',
    (a ← buf !! i; b ← buf !! (length l - 1 - i)%nat;
     Some (<[(length l - 1 - i)%nat := a]> (<[i := b]> buf))) = Some buf'
    /\ swapped l (S i) buf'.
Proof.
  intros Hi [Hlen Hbuf].
  assert (Hi2 : (2 * i + 2 <= length l)%nat).
  { pose proof (Nat.div_mod_eq (length l) 2). lia. }
  destruct (lookup_lt_is_Some_2 l i) as [a Ha]; [lia|].
  destruct (lookup_lt_is_Some_2 l (length l - 1 - i)) as [b Hb]; [lia|].
  assert (Hbi : buf !! i = Some a).
  { rewrite Hbuf by lia. destruct (decide _); [lia|assumption]. }
  assert (Hbm : buf !! (length l - 1 - i)%nat = Some b).
  { rewrite Hbuf by lia. destruct (decide _); [lia|assumption]. }
  eexists. rewrite Hbi. simpl. rewrite Hbm. simpl. split; [reflexivity|].
  split; [rewrite !length_insert; assumption|].
  intros j Hj. rewrite list_lookup_insert. rewrite length_insert.
  destruct (decide _) as [[<- _]|Hne1].
  - destruct (decide _); [|lia].
    rewrite <- Ha. f_equal. lia.
  - rewrite list_lookup_insert.
    destruct (decide _) as [[<- _]|Hne2].
    + destruct (decide _); [|lia]. symmetry. assumption.
    + rewrite Hbuf by assumption.
      destruct (decide (j < i \/ _)%nat), (decide (j < S i \/ _)%nat);
        try reflexivity; lia.
Qed.

Lemma swapped_half_reverse (l buf : list byte) :
  swapped l (length l / 2) buf -> buf = reverse l.
Proof.
  intros [Hlen Hbuf]. apply list_eq. intros j.
  pose proof (Nat.div_mod_eq (length l) 2) as Hdiv.
  pose proof (Nat.mod_upper_bound (length l) 2) as Hmod.
  destruct (decide (j < length l)%nat) as [Hj|Hj].
  - rewrite reverse_lookup by assumption. rewrite Hbuf by assumption.
    destruct (decide _); f_equal; lia.
  - rewrite !lookup_ge_None_2; [reflexivity| |]; [rewrite length_reverse|]; lia.
Qed.

(** The loop of [toBig] reverses its buffer, whatever its length. *)
Lemma swap_loop_reverse (l : list byte) :
  for_range 0 (length l / 2)
    (fun i buf =>
       a ← buf !! i;
       b ← buf !! (length l - 1 - i)%nat;
       Some (<[(length l - 1 - i)%nat := a]> (<[i := b]> buf))) l
  = Some (reverse l).
Proof.
  edestruct (for_range_invariant (swapped l)) as (buf & Hrun & Hinv);
    [| |rewrite Hrun].
  - split; [reflexivity|]. intros j Hj.
    destruct (decide _); [lia|reflexivity].
  - intros i s Hi. apply swapped_step. lia.
  - f_equal. apply swapped_half_reverse. exact Hinv.
Qed.

Lemma toBig_reverse (hash : DomainHash) :
  toBig hash = Some (big.SetBytes (reverse (externalapi.ByteSlice hash))).
Proof. unfold toBig. rewrite swap_loop_reverse. reflexivity. Qed.

Lemma toBig_little_endian (hash : DomainHash) :
  toBig hash = Some (binary.le_value (vec_to_list hash)).
Proof.
  rewrite toBig_reverse. unfold big.SetBytes.
  rewrite be_value_reverse. reflexivity.
Qed.

Lemma toBig_bound (hash : DomainHash) (v : Z) :
  toBig hash = Some v -> 0 <= v < 2 ^ 256.
Proof.
  rewrite toBig_little_endian. intros [= <-].
  pose proof (le_value_bound (vec_to_list hash)) as Hb.
  rewrite length_vec_to_list in Hb.
  change (256 ^ Z.of_nat 32) with (2 ^ 256) in Hb. exact Hb.
Qed.

(** *** The lookup table *)

Lemma tableSize_eq : tableSize = 2 ^ 20.
Proof. reflexivity. Qed.

Lemma table_round (tbl : LookupTable) (i : nat) (st : list byte * LookupTable) :
  Z.of_nat i < tableSize -> table_filled tbl i st ->
  exists st',
    (let '(seed, lookupTable) := st in
     seed ← binary.BigEndian_PutUint32 seed (wrap32 (Z.of_nat i));
     let hash := sha256.Sum256 seed in
     v ← binary.BigEndian_Uint64 (take 8 (vec_to_list hash));
     Some (seed, <[Z.of_nat i := v]> lookupTable)) = Some st'
    /\ table_filled tbl (S i) st'.
Proof.
  destruct st as [seed t]. intros Hi (Hlen & Htail & Ht).
  cbn [fst snd] in *. rewrite tableSize_eq in Hi.
  unfold binary.BigEndian_PutUint32.
  destruct (decide (4 <= length seed)%nat) as [_|]; [|lia].
  cbn [mbind option_bind].
  unfold binary.BigEndian_Uint64.
  rewrite length_take, length_vec_to_list.
  destruct (decide _) as [_|]; [|lia].
  cbn [mbind option_bind]. eexists. split; [reflexivity|].
  rewrite Htail. unfold wrap32. rewrite Z.mod_small by lia.
  rewrite take_take. change (8 `min` 8)%nat with 8%nat.
  split; [|split]; cbn [fst snd].
  - rewrite length_app, length_be_bytes, length_replicate. reflexivity.
  - rewrite drop_app_length'; [reflexivity|].
    symmetry. apply length_be_bytes.
  - intros k. unfold insert, fn_insert.
    destruct (decide (Z.of_nat i = k)) as [<-|Hne].
    + destruct (decide _); [|lia].
      unfold table_entry, seed_of_index. reflexivity.
    + rewrite Ht.
      destruct (decide (0 <= k < Z.of_nat i)), (decide (0 <= k < Z.of_nat (S i)));
        try lia; reflexivity.
Qed.

Lemma table_loop (tbl : LookupTable) (n : nat) :
  Z.of_nat n <= tableSize ->
  exists st,
    for_range 0 n
      (fun i '(seed, lookupTable) =>
         seed ← binary.BigEndian_PutUint32 seed (wrap32 (Z.of_nat i));
         let hash := sha256.Sum256 seed in
         v ← binary.BigEndian_Uint64 (take 8 (vec_to_list hash));
         Some (seed, <[Z.of_nat i := v]> lookupTable))
      (replicate 32 x00, tbl) = Some st
    /\ table_filled tbl n st.
Proof.
  intros Hn.
  apply (for_range_invariant (table_filled tbl) _ n 0%nat).
  - split; [reflexivity|]. split; [reflexivity|]. intros k.
    cbn [snd]. destruct (decide _); [lia|reflexivity].
  - intros i st Hi Hst. apply table_round; [lia|exact Hst].
Qed.

(** [generateHoohashLookupTable] runs to completion; it writes
    [table_entry] at every index of the array and nothing else. *)
Lemma generateHoohashLookupTable_result (tbl : LookupTable) :
  exists tbl',
    generateHoohashLookupTable tbl = Some tbl' /\
    forall k, tbl' k = if decide (0 <= k < tableSize) then table_entry k else tbl k.
Proof.
  unfold generateHoohashLookupTable.
  assert (Hsize : Z.of_nat (Z.to_nat tableSize) = tableSize).
  { apply Z2Nat.id. rewrite tableSize_eq. lia. }
  revert Hsize. generalize (Z.to_nat tableSize) as n. intros n Hsize.
  destruct (table_loop tbl n) as (st & Hrun & Hinv); [lia|].
  cbv zeta in Hrun |- *. rewrite Hrun. cbn [mbind option_bind]. eexists. split; [reflexivity|].
  destruct Hinv as (_ & _ & Ht). intros k. rewrite Ht, Hsize. reflexivity.
Qed.

(** C2 (as the code has it): for every index i in [0, 2^20),
    generateHoohashLookupTable completes and leaves at lookupTable[i] the
    first 8 bytes, read as a big-endian 64-bit word, of the SHA-256 of the
    32-byte seed made of the 4-byte big-endian encoding of i followed by 28
    zero bytes. *)
Theorem generateHoohashLookupTable_entries (tbl : LookupTable) (i : Z) :
  0 <= i < 2 ^ 20 ->
  exists tbl',
    generateHoohashLookupTable tbl = Some tbl' /\ tbl' i = table_entry i.
Proof.
  intros Hi.
  destruct (generateHoohashLookupTable_result tbl) as (tbl' & Hrun & Hent).
  exists tbl'. split; [exact Hrun|]. rewrite Hent.
  destruct (decide _) as [_|Hout]; [reflexivity|].
  rewrite tableSize_eq in Hout. lia.
Qed.

(** C3 (as the code has it): toBig reverses the byte order of the digest
    and reads the reversed bytes as a big-endian unsigned integer, which
    is the digest read as a little-endian number; the digest 0x01 followed
    by 31 zero bytes gives 1, and it is the digest with 0x01 as its last
    byte that gives 2^248. *)
Theorem toBig_reverse_parse :
  (forall hash : DomainHash,
     toBig hash = Some (big.SetBytes (reverse (externalapi.ByteSlice hash))) /\
     toBig hash = Some (binary.le_value (externalapi.ByteSlice hash)))
  /\ toBig digest_one = Some 1
  /\ toBig digest_one_last = Some (2 ^ 248).
Proof.
  split; [intros hash; split; [apply toBig_reverse|apply toBig_little_endian]|].
  rewrite !toBig_reverse. split; vm_compute; reflexivity.
Qed.

(** *** [State] *)

Lemma powMessage_written (w : hashes.HashWriter) (state : State) :
  powMessage w state =
    Some {| hashes.hasher := hashes.hasher w;
            hashes.written :=
              (((hashes.written w ++ externalapi.ByteSlice (prePowHash state))
                ++ serialize_int64 (Timestamp state))
                ++ replicate 32 x00)
                ++ serialize_uint64 (Nonce state) |}.
Proof. reflexivity. Qed.

(** The original variant never panics, and its value is the heavy hash
    of the message hash read as a little-endian number. *)
Lemma CalculateProofOfWorkValue_value (state : State) :
  exists w,
    powMessage PoWHashWriter state = Some w /\
    CalculateProofOfWorkValue state
    = Some (binary.le_value
              (vec_to_list (bHeavyHash (mat state) (hashes.Finalize w)))).
Proof.
  unfold CalculateProofOfWorkValue. rewrite powMessage_written.
  eexists. split; [reflexivity|]. cbn [mbind option_bind].
  apply toBig_little_endian.
Qed.

Lemma CalculateProofOfWorkValue_total (state : State) :
  exists v, CalculateProofOfWorkValue state = Some v /\ 0 <= v < 2 ^ 256.
Proof.
  destruct (CalculateProofOfWorkValue_value state) as (w & _ & Hv).
  eexists. split; [exact Hv|].
  unfold CalculateProofOfWorkValue in Hv. rewrite powMessage_written in Hv.
  cbn [mbind option_bind] in Hv. exact (toBig_bound _ _ Hv).
Qed.

Lemma Cmp_le (x y : Z) : (big.Cmp x y <=? 0) = bool_decide (x <= y).
Proof.
  unfold big.Cmp. destruct (Z.compare_spec x y);
    [rewrite bool_decide_eq_true_2|rewrite bool_decide_eq_true_2
    |rewrite bool_decide_eq_false_2]; try reflexivity; lia.
Qed.

(** C4: CheckProofOfWork returns true exactly when the work value of
    CalculateProofOfWorkValue is at most the target; with the target equal
    to the work value it returns true, with the target one below it
    returns false. *)
Theorem CheckProofOfWork_inclusive (state : State) :
  exists v,
    CalculateProofOfWorkValue state = Some v /\
    CheckProofOfWork state = Some (bool_decide (v <= Target state)) /\
    (Target state = v -> CheckProofOfWork state = Some true) /\
    (Target state = v - 1 -> CheckProofOfWork state = Some false).
Proof.
  destruct (CalculateProofOfWorkValue_total state) as (v & Hv & _).
  exists v. split; [exact Hv|].
  assert (Hcheck : CheckProofOfWork state = Some (bool_decide (v <= Target state))).
  { unfold CheckProofOfWork. rewrite Hv. cbn [mbind option_bind].
    rewrite Cmp_le. reflexivity. }
  split; [exact Hcheck|]. split; intros Ht; rewrite Hcheck; f_equal.
  - apply bool_decide_eq_true_2. lia.
  - apply bool_decide_eq_false_2. lia.
Qed.

(** C7: n calls of IncrementNonce leave the nonce at the initial nonce
    plus n modulo 2^64 and change no other field of the State. *)
Theorem IncrementNonce_iter (state : State) (n : nat) :
  uint64_range (Nonce state) ->
  let state' := Nat.iter n IncrementNonce state in
  Nonce state' = (Nonce state + Z.of_nat n) mod 2 ^ 64 /\
  mat state' = mat state /\
  Timestamp state' = Timestamp state /\
  Target state' = Target state /\
  prePowHash state' = prePowHash state.
Proof.
  intros Hrange. cbv zeta. induction n as [|n IH].
  - change (Nat.iter 0 IncrementNonce state) with state.
    rewrite Z.add_0_r, Z.mod_small by exact Hrange. auto.
  - rewrite Nat.iter_succ.
    destruct IH as (Hn & Hm & Hts & Htg & Hp).
    set (s := Nat.iter n IncrementNonce state) in *.
    unfold IncrementNonce. cbn [Nonce mat Timestamp Target prePowHash].
    repeat split; try assumption.
    unfold wrap64. rewrite Hn, Nat2Z.inj_succ.
    rewrite Zplus_mod_idemp_l. f_equal. lia.
Qed.

(** [NewState] returns, with the table rebuilt. *)
Lemma NewState_returns (header : H) (tbl : LookupTable) :
  let zeroed := externalapi.SetNonce 0
                  (externalapi.SetTimeInMilliseconds 0 header) in
  let restored := externalapi.SetNonce (externalapi.Nonce header)
                    (externalapi.SetTimeInMilliseconds
                       (externalapi.TimeInMilliseconds header) zeroed) in
  exists tbl',
    generateHoohashLookupTable tbl = Some tbl' /\
    NewState header tbl
    = Some ({| mat := generateMatrix (HeaderHash zeroed);
               Timestamp := externalapi.TimeInMilliseconds header;
               Nonce := externalapi.Nonce header;
               Target := CompactToBig (externalapi.Bits header);
               prePowHash := HeaderHash zeroed |}, restored, tbl').
Proof.
  cbv zeta. unfold NewState.
  destruct (generateHoohashLookupTable_result tbl) as (tbl' & Hrun & _).
  exists tbl'. split; [exact Hrun|]. rewrite Hrun. reflexivity.
Qed.

(** C8: NewState returns; the header it worked on holds its original
    timestamp and nonce again, the State carries those two values, and the
    pre-PoW hash was taken from the header with both fields zero. *)
Theorem NewState_restores_header (header : H) (tbl : LookupTable) :
  exists state header' tbl' zeroed,
    NewState header tbl = Some (state, header', tbl') /\
    externalapi.TimeInMilliseconds header' = externalapi.TimeInMilliseconds header /\
    externalapi.Nonce header' = externalapi.Nonce header /\
    Timestamp state = externalapi.TimeInMilliseconds header /\
    Nonce state = externalapi.Nonce header /\
    zeroed = externalapi.SetNonce 0 (externalapi.SetTimeInMilliseconds 0 header) /\
    prePowHash state = HeaderHash zeroed /\
    externalapi.TimeInMilliseconds zeroed = 0 /\
    externalapi.Nonce zeroed = 0.
Proof.
  destruct (NewState_returns header tbl) as (tbl' & _ & Hnew).
  do 4 eexists. split; [exact Hnew|].
  cbn [Timestamp Nonce prePowHash].
  rewrite externalapi.time_SetNonce, externalapi.time_SetTime.
  rewrite !externalapi.nonce_SetNonce.
  rewrite externalapi.time_SetNonce, externalapi.time_SetTime.
  repeat split; reflexivity.
Qed.

(** *** [big.Int] helpers *)

Lemma BitLen_bound (v : Z) : 0 <= v < 2 ^ 256 -> 0 <= big.BitLen v <= 256.
Proof.
  intros Hv. unfold big.BitLen. rewrite Z.abs_eq by lia.
  destruct (Z.eqb_spec v 0) as [|Hne]; [lia|].
  pose proof (Z.log2_nonneg v).
  assert (Z.log2 v < 256) by (apply Z.log2_lt_pow2; lia). lia.
Qed.

Lemma BitLen_fuel (x : Z) : 0 <= x -> x < 2 ^ Z.of_nat (Z.to_nat (big.BitLen x)).
Proof.
  intros Hx. unfold big.BitLen. rewrite Z.abs_eq by lia.
  destruct (Z.eqb_spec x 0) as [->|Hne]; [reflexivity|].
  pose proof (Z.log2_nonneg x).
  rewrite Z2Nat.id by lia.
  replace (Z.log2 x + 1) with (Z.succ (Z.log2 x)) by lia.
  apply Z.log2_spec. lia.
Qed.

Lemma bytes_loop_acc (fuel : nat) (x : Z) (acc : list byte) :
  big.bytes_loop fuel x acc = big.bytes_loop fuel x [] ++ acc.
Proof.
  revert x acc. induction fuel as [|fuel IH]; intros x acc; [reflexivity|].
  cbn [big.bytes_loop]. destruct (x <=? 0); [reflexivity|].
  rewrite (IH _ (_ :: acc)), (IH _ [_]), <- app_assoc. reflexivity.
Qed.

Lemma bytes_loop_step (fuel : nat) (x : Z) :
  0 < x ->
  big.bytes_loop (S fuel) x [] = big.bytes_loop fuel (x / 256) [] ++ [byte_of_Z x].
Proof.
  intros Hx. cbn [big.bytes_loop].
  destruct (Z.leb_spec x 0); [lia|]. apply bytes_loop_acc.
Qed.

Lemma bytes_loop_zero (fuel : nat) (x : Z) :
  x <= 0 -> big.bytes_loop fuel x [] = [].
Proof.
  intros Hx. destruct fuel; [reflexivity|]. cbn [big.bytes_loop].
  destruct (Z.leb_spec x 0); [reflexivity|lia].
Qed.

Lemma half_fuel (fuel : nat) (x : Z) :
  0 < x < 2 ^ Z.of_nat (S fuel) -> 0 <= x / 256 < 2 ^ Z.of_nat fuel.
Proof.
  rewrite Nat2Z.inj_succ, Z.pow_succ_r by lia. intros Hx.
  split; [apply Z.div_pos; lia|].
  apply Z.div_lt_upper_bound; lia.
Qed.

Lemma bytes_loop_value (fuel : nat) (x : Z) :
  0 <= x < 2 ^ Z.of_nat fuel ->
  binary.be_value (big.bytes_loop fuel x []) = x.
Proof.
  revert x. induction fuel as [|fuel IH]; intros x Hx.
  - change (2 ^ Z.of_nat 0) with 1 in Hx. cbn. lia.
  - destruct (decide (x = 0)) as [->|Hne]; [reflexivity|].
    rewrite bytes_loop_step, be_value_snoc, IH, byte_to_of_Z by
      (try apply half_fuel; lia).
    pose proof (Z.div_mod x 256). lia.
Qed.

Lemma bytes_loop_length (fuel : nat) (x : Z) :
  0 < x < 2 ^ Z.of_nat fuel ->
  256 ^ (Z.of_nat (length (big.bytes_loop fuel x [])) - 1) <= x.
Proof.
  revert x. induction fuel as [|fuel IH]; intros x Hx.
  - change (2 ^ Z.of_nat 0) with 1 in Hx. lia.
  - rewrite bytes_loop_step by lia.
    rewrite length_app, Nat2Z.inj_add. cbn [length].
    pose proof (half_fuel fuel x Hx) as Hq.
    destruct (decide (x / 256 = 0)) as [Hz|Hnz].
    + rewrite Hz, bytes_loop_zero by lia. cbn. lia.
    + specialize (IH (x / 256) ltac:(lia)).
      set (n := Z.of_nat (length (big.bytes_loop fuel (x / 256) []))) in *.
      assert (Hn : 0 < n).
      { destruct (big.bytes_loop fuel (x / 256) []) eqn:Hl; [|subst n; cbn; lia].
        apply (f_equal binary.be_value) in Hl.
        rewrite bytes_loop_value in Hl by lia. cbn in Hl. lia. }
      replace (n + Z.of_nat 1 - 1) with (Z.succ (n - 1)) by lia.
      rewrite Z.pow_succ_r by lia.
      pose proof (Z.div_mod x 256). pose proof (Z.mod_pos_bound x 256). lia.
Qed.

(** [Bytes] is a right inverse of [SetBytes] on the naturals... *)
Lemma SetBytes_Bytes (x : Z) : 0 <= x -> big.SetBytes (big.Bytes x) = x.
Proof.
  intros Hx. unfold big.SetBytes, big.Bytes. rewrite Z.abs_eq by lia.
  apply bytes_loop_value. split; [lia|apply BitLen_fuel; lia].
Qed.

(** ... and no encoding of the same number is shorter. *)
Lemma Bytes_minimal (x : Z) (e : list byte) :
  0 <= x -> big.SetBytes e = x -> (length (big.Bytes x) <= length e)%nat.
Proof.
  intros Hx He. unfold big.Bytes. rewrite Z.abs_eq by lia.
  destruct (decide (x = 0)) as [->|Hne].
  - rewrite bytes_loop_zero by lia. cbn. lia.
  - pose proof (bytes_loop_length (Z.to_nat (big.BitLen x)) x) as Hlen.
    pose proof (BitLen_fuel x Hx) as Hfuel. specialize (Hlen ltac:(lia)).
    pose proof (be_value_bound e) as Hb. unfold big.SetBytes in He.
    rewrite He in Hb.
    set (n := length (big.bytes_loop _ x [])) in *.
    destruct (decide (n <= length e)%nat) as [|Hgt]; [assumption|exfalso].
    assert (256 ^ Z.of_nat (length e) <= 256 ^ (Z.of_nat n - 1))
      by (apply Z.pow_le_mono_r; lia).
    lia.
Qed.

(** *** [verifiableDelayFunction] *)

Lemma vdf_prime_literal :
  big.SetString16
    "FFFFFFFFFFFFFFFFFFFFFFFFFFFFFFFFFFFFFFFFFFFFFFFFFFFFFFFEFFFFFC2F"
  = Some vdf_prime.
Proof. vm_compute. reflexivity. Qed.

Lemma Mod_vdf_prime (x : Z) : big.Mod x vdf_prime = Some (x mod vdf_prime).
Proof. reflexivity. Qed.

Lemma vdf_loop (n start : nat) (x : Z) :
  for_range start n
    (fun _ x => p ← Some vdf_prime; big.Mod (big.Mul x x) p) x
  = Some (Nat.iter n vdf_round x).
Proof.
  set (body := fun (_ : nat) (x : Z) =>
                 p ← Some vdf_prime; big.Mod (big.Mul x x) p).
  assert (Hbody : forall i y, body i y = Some (vdf_round y)).
  { intros i y. unfold body. cbn [mbind option_bind].
    rewrite Mod_vdf_prime. reflexivity. }
  revert start x. induction n as [|n IH]; intros start x; [reflexivity|].
  cbn [for_range]. rewrite Hbody. cbn [mbind option_bind].
  rewrite IH, Nat.iter_succ_r. reflexivity.
Qed.

Lemma vdf_round_nonneg (n : nat) (x : Z) : 0 <= x -> 0 <= Nat.iter n vdf_round x.
Proof.
  intros Hx. destruct n as [|n]; [exact Hx|].
  rewrite Nat.iter_succ. unfold vdf_round at 1.
  apply Z.mod_pos_bound. reflexivity.
Qed.

Lemma verifiableDelayFunction_value (input : list byte) :
  verifiableDelayFunction input
  = Some (vec_to_list (sha256.Sum256
            (big.Bytes (Nat.iter 1000 vdf_round (big.SetBytes input))))).
Proof.
  unfold verifiableDelayFunction. cbv zeta.
  rewrite vdf_prime_literal. unfold vdf_iterations.
  rewrite vdf_loop. reflexivity.
Qed.

(** The result is a SHA-256 digest, hence 32 bytes. *)
Lemma verifiableDelayFunction_array (input : list byte) :
  exists h : vec byte 32, verifiableDelayFunction input = Some (vec_to_list h).
Proof. eexists. apply verifiableDelayFunction_value. Qed.

(** C6: for every input, verifiableDelayFunction returns (it has no
    failure mode) the SHA-256 of the minimal big-endian encoding of the
    value reached from the input, read as an unsigned integer, by exactly
    1000 rounds of x = (x * x) mod p with p = 2^256 - 2^32 - 977. *)
Theorem verifiableDelayFunction_spec (input : list byte) :
  let p := 2 ^ 256 - 2 ^ 32 - 977 in
  let x := Nat.iter 1000 (fun x => (x * x) mod p) (big.SetBytes input) in
  verifiableDelayFunction input
    = Some (vec_to_list (sha256.Sum256 (big.Bytes x))) /\
  big.SetBytes (big.Bytes x) = x /\
  (forall e, big.SetBytes e = x -> (length (big.Bytes x) <= length e)%nat).
Proof.
  cbv zeta. fold vdf_prime. change (fun x => (x * x) mod vdf_prime) with vdf_round.
  assert (Hx : 0 <= Nat.iter 1000 vdf_round (big.SetBytes input)).
  { apply vdf_round_nonneg, be_value_bound. }
  split; [|split].
  - apply verifiableDelayFunction_value.
  - apply SetBytes_Bytes, Hx.
  - intros e He. apply Bytes_minimal; assumption.
Qed.

(** *** [BlockLevel] *)

Lemma wrap_int_id (z : Z) : int_range z -> wrap_int z = z.
Proof.
  unfold int_range, wrap_int. intros Hz.
  rewrite Z.mod_small by lia. lia.
Qed.

(** The two branches of [BlockLevel]. *)
Lemma BlockLevel_branches (header : H) (maxBlockLevel : Z) (tbl : LookupTable) :
  (length (externalapi.DirectParents header) = 0%nat ->
     BlockLevel header maxBlockLevel tbl = Some (maxBlockLevel, tbl)) /\
  (length (externalapi.DirectParents header) <> 0%nat ->
     exists state header' tbl' v level,
       NewState header tbl = Some (state, header', tbl') /\
       CalculateProofOfWorkValue state = Some v /\
       BlockLevel header maxBlockLevel tbl = Some (level, tbl') /\
       level = Z.max 0 (wrap_int (maxBlockLevel - big.BitLen v)) /\
       0 <= big.BitLen v <= 256).
Proof.
  unfold BlockLevel. split; intros Hp.
  - destruct (decide _); [reflexivity|contradiction].
  - destruct (decide _) as [|_]; [contradiction|].
    destruct (NewState_returns header tbl) as (tbl' & _ & Hnew).
    match type of Hnew with _ = Some (?st, ?h', _) =>
      set (state := st) in *; set (header' := h') in * end.
    destruct (CalculateProofOfWorkValue_total state) as (v & Hv & Hb).
    exists state, header', tbl', v. eexists.
    rewrite Hnew. cbn [mbind option_bind fst snd]. rewrite Hv.
    cbn [mbind option_bind].
    split; [reflexivity|]. split; [reflexivity|]. split; [reflexivity|].
    split; [|apply BitLen_bound, Hb].
    destruct (Z.ltb_spec (wrap_int (maxBlockLevel - big.BitLen v)) 0); lia.
Qed.

(** C5: with no direct parents BlockLevel returns maxBlockLevel as it
    is; otherwise it returns maxBlockLevel minus the bit length of the
    original-variant work value, or 0 when that difference is negative,
    so never a negative level.  The difference is Go's int subtraction; it
    is the exact difference for every maxBlockLevel from -2^63 + 256 up.
    For a maxBlockLevel that is not negative, no header gives a negative
    level. *)
Theorem BlockLevel_spec (header : H) (maxBlockLevel : Z) (tbl : LookupTable) :
  (length (externalapi.DirectParents header) = 0%nat ->
     BlockLevel header maxBlockLevel tbl = Some (maxBlockLevel, tbl)) /\
  (length (externalapi.DirectParents header) <> 0%nat ->
     exists state header' tbl' v level,
       NewState header tbl = Some (state, header', tbl') /\
       CalculateProofOfWorkValue state = Some v /\
       BlockLevel header maxBlockLevel tbl = Some (level, tbl') /\
       level = Z.max 0 (wrap_int (maxBlockLevel - big.BitLen v)) /\
       0 <= level /\
       (- 2 ^ 63 + 256 <= maxBlockLevel < 2 ^ 63 ->
          level = Z.max 0 (maxBlockLevel - big.BitLen v))) /\
  (0 <= maxBlockLevel ->
     exists level tbl',
       BlockLevel header maxBlockLevel tbl = Some (level, tbl') /\ 0 <= level).
Proof.
  destruct (BlockLevel_branches header maxBlockLevel tbl) as [Hgenesis Hother].
  split; [exact Hgenesis|]. split.
  - intros Hp.
    destruct (Hother Hp) as (state & header' & tbl' & v & level
                             & Hnew & Hv & Hlevel & Hmax & Hbits).
    exists state, header', tbl', v, level.
    repeat (split; [assumption|]). split; [lia|].
    intros Hm. rewrite Hmax, wrap_int_id; [reflexivity|].
    unfold int_range. lia.
  - intros Hmax.
    destruct (decide (length (externalapi.DirectParents header) = 0%nat))
      as [Hp|Hp].
    + exists maxBlockLevel, tbl. split; [apply Hgenesis, Hp|exact Hmax].
    + destruct (Hother Hp) as (_ & _ & tbl' & v & level & _ & _ & Hlevel & Hl & _).
      exists level, tbl'. split; [exact Hlevel|lia].
Qed.

(** *** [memoryHardFunction] *)

Lemma memorySize_eq : memorySize = 1024.
Proof. reflexivity. Qed.

Lemma LittleEndian_Uint64_take (b : list byte) :
  (8 <= length b)%nat ->
  binary.LittleEndian_Uint64 b = Some (binary.le_value (take 8 b)).
Proof.
  intros Hb. unfold binary.LittleEndian_Uint64.
  destruct (decide _); [reflexivity|lia].
Qed.

Lemma LittleEndian_Uint64_array {n : nat} (a : vec byte n) :
  (8 <= n)%nat -> is_Some (binary.LittleEndian_Uint64 (vec_to_list a)).
Proof.
  intros Hn. rewrite LittleEndian_Uint64_take; [eexists; reflexivity|].
  rewrite length_vec_to_list. exact Hn.
Qed.

(** Filling [n] words with a fixed [seed]. *)
Lemma fill_loop (n : nat) (seed : Z) (memory : list Z) :
  length memory = n ->
  for_range 0 n (fun i memory => v ← Some seed; Some (<[i := v]> memory)) memory
  = Some (replicate n seed).
Proof.
  intros Hlen.
  edestruct (for_range_invariant
               (fun i m => length m = n /\
                  forall j, (j < i)%nat -> m !! j = Some seed))
    as (m & Hrun & Hm & Hall); [| |rewrite Hrun].
  - split; [exact Hlen|]. intros j Hj. lia.
  - intros i m Hi [Hm Hall]. cbn [mbind option_bind].
    eexists. split; [reflexivity|].
    split; [rewrite length_insert; exact Hm|].
    intros j Hj. rewrite list_lookup_insert.
    destruct (decide _); [reflexivity|]. apply Hall. lia.
  - f_equal. apply list_eq. intros j.
    destruct (decide (j < n)%nat) as [Hj|Hj].
    + rewrite Hall by lia. symmetry. apply lookup_replicate_2, Hj.
    + rewrite !lookup_ge_None_2; [reflexivity| |];
        [rewrite length_replicate|]; lia.
Qed.

(** Every word of the scratchpad starts as the little-endian value of the
    leading 8 input bytes. *)
Lemma mhf_initialize_seed (input : list byte) :
  (8 <= length input)%nat ->
  mhf_initialize input
  = Some (replicate (Z.to_nat memorySize) (binary.le_value (take 8 input))).
Proof.
  intros Hin. unfold mhf_initialize. cbv zeta.
  rewrite LittleEndian_Uint64_take by exact Hin.
  rewrite length_replicate. apply fill_loop, length_replicate.
Qed.

Lemma mhf_initialize_short (input : list byte) :
  (length input < 8)%nat -> mhf_initialize input = None.
Proof.
  intros Hin. unfold mhf_initialize, binary.LittleEndian_Uint64. cbv zeta.
  destruct (decide _); [lia|]. rewrite length_replicate.
  rewrite memorySize_eq. reflexivity.
Qed.

(** One round of the mixing loop keeps the scratchpad at its length and
    does not panic. *)
Lemma mhf_mix_round (memory : list Z) (j : nat) :
  length memory = Z.to_nat memorySize -> (j < Z.to_nat memorySize)%nat ->
  exists memory',
    (mj ← memory !! j;
     let index1 := mj mod memorySize in
     let index2 := Z.shiftr mj 32 mod memorySize in
     m1 ← memory !! Z.to_nat index1;
     m2 ← memory !! Z.to_nat index2;
     let hash := [] in
     let hash := hash ++ binary.le_bytes 8 m1 in
     let hash := hash ++ binary.le_bytes 8 m2 in
     v ← binary.LittleEndian_Uint64 (vec_to_list (blake2b_Sum512 hash));
     Some (<[j := v]> memory)) = Some memory'
    /\ length memory' = Z.to_nat memorySize.
Proof.
  intros Hlen Hj.
  assert (Hidx : forall z, (Z.to_nat (z mod memorySize) < length memory)%nat).
  { intros z. rewrite Hlen. rewrite memorySize_eq.
    pose proof (Z.mod_pos_bound z 1024). lia. }
  destruct (lookup_lt_is_Some_2 memory j) as [mj Hmj]; [lia|].
  rewrite Hmj. cbn [mbind option_bind]. cbv zeta.
  destruct (lookup_lt_is_Some_2 memory _ (Hidx mj)) as [m1 Hm1].
  destruct (lookup_lt_is_Some_2 memory _ (Hidx (Z.shiftr mj 32))) as [m2 Hm2].
  rewrite Hm1. cbn [mbind option_bind]. rewrite Hm2. cbn [mbind option_bind].
  destruct (LittleEndian_Uint64_array
              (blake2b_Sum512 (([] ++ binary.le_bytes 8 m1) ++ binary.le_bytes 8 m2)))
    as [v Hv]; [lia|].
  rewrite Hv. cbn [mbind option_bind]. eexists. split; [reflexivity|].
  rewrite length_insert. exact Hlen.
Qed.

Lemma mhf_mix_total (memory : list Z) :
  length memory = Z.to_nat memorySize ->
  exists memory',
    mhf_mix memory = Some memory' /\ length memory' = Z.to_nat memorySize.
Proof.
  intros Hlen. unfold mhf_mix.
  edestruct (for_range_invariant
               (fun (_ : nat) (m : list Z) => length m = Z.to_nat memorySize))
    as (m & Hrun & Hm); [exact Hlen| |eexists; split; [exact Hrun|exact Hm]].
  intros i m Hi Hm.
  edestruct (for_range_invariant
               (fun (_ : nat) (m : list Z) => length m = Z.to_nat memorySize))
    as (m' & Hrun' & Hm'); [exact Hm| |eexists; split; [exact Hrun'|exact Hm']].
  intros j m0 Hj Hm0. apply mhf_mix_round; [exact Hm0|lia].
Qed.

Lemma mhf_combine_total (memory : list Z) :
  (8 <= length memory)%nat ->
  exists result, mhf_combine memory = Some result /\ length result = 64%nat.
Proof.
  intros Hlen. unfold mhf_combine. cbv zeta.
  edestruct (for_range_invariant
               (fun (_ : nat) (r : list byte) => length r = 64%nat))
    as (r & Hrun & Hr); [apply length_replicate | |
                         eexists; split; [exact Hrun|exact Hr]].
  intros i r Hi Hr.
  destruct (lookup_lt_is_Some_2 memory i) as [mi Hmi]; [lia|].
  rewrite Hmi. cbn [mbind option_bind].
  unfold slice_from. destruct (decide _) as [_|]; [|lia].
  cbn [mbind option_bind]. unfold binary.LittleEndian_PutUint64.
  rewrite length_drop. destruct (decide _) as [_|]; [|lia].
  cbn [mbind option_bind]. eexists. split; [reflexivity|].
  rewrite !length_app, length_take, length_le_bytes, !length_drop. lia.
Qed.

(** On an input of at least 8 bytes [memoryHardFunction] returns 64
    bytes. *)
Lemma memoryHardFunction_length (input : list byte) :
  (8 <= length input)%nat ->
  exists out, memoryHardFunction input = Some out /\ length out = 64%nat.
Proof.
  intros Hin. unfold memoryHardFunction.
  rewrite mhf_initialize_seed by exact Hin. cbn [mbind option_bind].
  destruct (mhf_mix_total (replicate (Z.to_nat memorySize)
                             (binary.le_value (take 8 input))))
    as (m & Hmix & Hm); [apply length_replicate|].
  rewrite Hmix. cbn [mbind option_bind].
  apply mhf_combine_total. rewrite Hm, memorySize_eq. lia.
Qed.

(** C9: two inputs of at least 8 bytes with the same leading 8 bytes give
    the same output: the scratchpad is filled with the little-endian value
    of those 8 bytes and the input is not read again. *)
Theorem memoryHardFunction_leading_bytes (input1 input2 : list byte) :
  (8 <= length input1)%nat -> (8 <= length input2)%nat ->
  take 8 input1 = take 8 input2 ->
  mhf_initialize input1
    = Some (replicate (Z.to_nat memorySize) (binary.le_value (take 8 input1))) /\
  mhf_initialize input2 = mhf_initialize input1 /\
  memoryHardFunction input1 = memoryHardFunction input2 /\
  exists out, memoryHardFunction input1 = Some out /\ length out = 64%nat.
Proof.
  intros H1 H2 Heq.
  assert (Hinit : mhf_initialize input2 = mhf_initialize input1).
  { rewrite !mhf_initialize_seed by assumption. rewrite Heq. reflexivity. }
  split; [apply mhf_initialize_seed, H1|]. split; [exact Hinit|].
  split; [|apply memoryHardFunction_length, H1].
  unfold memoryHardFunction. rewrite Hinit. reflexivity.
Qed.

(** *** [CalculateProofOfWorkValueHoohashRev2] *)

Lemma toBig_total (hash : DomainHash) : exists v, toBig hash = Some v.
Proof. eexists. apply toBig_little_endian. Qed.

(** The run of the rev2 variant, value by value. *)
Lemma rev2_trace (tbl : LookupTable) (state : State) :
  exists w R w64 V d v,
    powMessage Blake3HashWriter state = Some w /\
    memoryHardFunction (externalapi.ByteSlice (hashes.Finalize w)) = Some R /\
    length R = 64%nat /\
    binary.BigEndian_Uint64 R = Some w64 /\
    verifiableDelayFunction R = Some V /\
    length V = 32%nat /\
    slice_to_array 32 R = Some d /\
    toBig (Blake3Hash (HoohashMatrixMultiplication (mat state) d)) = Some v /\
    CalculateProofOfWorkValueHoohashRev2 tbl state = Some v.
Proof.
  pose proof (powMessage_written Blake3HashWriter state) as Hw.
  match type of Hw with _ = Some ?x => set (w := x) in Hw end.
  destruct (memoryHardFunction_length
              (externalapi.ByteSlice (hashes.Finalize w)))
    as (R & HR & HlenR).
  { unfold externalapi.ByteSlice. rewrite length_vec_to_list. lia. }
  assert (Hw64 : binary.BigEndian_Uint64 R = Some (binary.be_value (take 8 R))).
  { unfold binary.BigEndian_Uint64. destruct (decide _); [reflexivity|lia]. }
  destruct (verifiableDelayFunction_array R) as [h HV].
  destruct (slice_to_array_is_Some 32 R) as [d Hd]; [lia|].
  destruct (toBig_total
              (Blake3Hash (HoohashMatrixMultiplication (mat state) d)))
    as [v Hv].
  exists w, R, (binary.be_value (take 8 R)), (vec_to_list h), d, v.
  split; [exact Hw|]. split; [exact HR|]. split; [exact HlenR|].
  split; [exact Hw64|]. split; [exact HV|].
  split; [apply length_vec_to_list|]. split; [exact Hd|]. split; [exact Hv|].
  unfold CalculateProofOfWorkValueHoohashRev2.
  eapply bind_eq; [exact Hw|]. cbv beta zeta.
  eapply bind_eq; [exact HR|]. cbv beta zeta.
  eapply bind_eq; [exact Hw64|]. cbv beta zeta.
  eapply bind_eq; [exact HV|]. cbv beta zeta.
  eapply bind_eq;
    [exact (slice_to_array_app 32 _ _ d (slice_to_array_app 32 _ _ d Hd))|].
  cbv beta zeta. exact Hv.
Qed.

(** C1: in the rev2 variant the conversion to a 32-byte array keeps the
    first 32 bytes of the concatenation R || V || byte(T64), which are the
    first 32 bytes of the memoryHardFunction result R; whatever V and T64
    are, the array is the same, and the work value is computed from that
    array alone, so it does not depend on V, on T64 or on the lookup
    table. *)
Theorem rev2_consumes_first_32_bytes (tbl : LookupTable) (state : State) :
  exists w R d,
    powMessage Blake3HashWriter state = Some w /\
    memoryHardFunction (externalapi.ByteSlice (hashes.Finalize w)) = Some R /\
    vec_to_list d = take 32 R /\
    (forall (V : list byte) (T64 : Z),
       length ((R ++ V) ++ [byte_of_Z T64]) = (64 + length V + 1)%nat /\
       slice_to_array 32 ((R ++ V) ++ [byte_of_Z T64]) = Some d /\
       take 32 ((R ++ V) ++ [byte_of_Z T64]) = take 32 R) /\
    CalculateProofOfWorkValueHoohashRev2 tbl state
    = toBig (Blake3Hash (HoohashMatrixMultiplication (mat state) d)) /\
    (forall tbl', CalculateProofOfWorkValueHoohashRev2 tbl' state
                  = CalculateProofOfWorkValueHoohashRev2 tbl state).
Proof.
  destruct (rev2_trace tbl state)
    as (w & R & w64 & V & d & v & Hw & HR & HlenR & _ & _ & _ & Hd & Hv & Hrev2).
  exists w, R, d. split; [exact Hw|]. split; [exact HR|].
  split; [apply slice_to_array_take, Hd|]. split; [|split].
  - intros V' T64. split; [|split].
    + rewrite !length_app, HlenR. reflexivity.
    + apply slice_to_array_app, slice_to_array_app, Hd.
    + rewrite <- app_assoc. apply take_app_le. lia.
  - rewrite Hrev2, Hv. reflexivity.
  - intros tbl'.
    destruct (rev2_trace tbl' state)
      as (w' & R' & _ & _ & d' & v' & Hw' & HR' & _ & _ & _ & _ & Hd' & Hv' & Hrev2').
    rewrite Hw in Hw'. injection Hw' as <-.
    rewrite HR in HR'. injection HR' as <-.
    rewrite Hd in Hd'. injection Hd' as <-.
    rewrite Hrev2, Hrev2', <- Hv, <- Hv'. reflexivity.
Qed.

(** C10: memoryHardFunction returns exactly 64 bytes on every input of at
    least 8 bytes; in the rev2 variant the combined slice therefore has 97
    bytes, its conversion to a 32-byte array succeeds, and the evaluation
    returns a work value for every State and table. *)
Theorem memoryHardFunction_64_bytes_rev2_total :
  (forall input : list byte,
     (8 <= length input)%nat ->
     exists out, memoryHardFunction input = Some out /\ length out = 64%nat) /\
  (forall (tbl : LookupTable) (state : State),
     exists w R w64 V arr v,
       powMessage Blake3HashWriter state = Some w /\
       memoryHardFunction (externalapi.ByteSlice (hashes.Finalize w)) = Some R /\
       length R = 64%nat /\
       binary.BigEndian_Uint64 R = Some w64 /\
       verifiableDelayFunction R = Some V /\
       let combined := (R ++ V) ++ [byte_of_Z (timeMemoryTradeoff tbl w64)] in
       length combined = 97%nat /\
       slice_to_array 32 combined = Some arr /\
       CalculateProofOfWorkValueHoohashRev2 tbl state = Some v).
Proof.
  split; [exact memoryHardFunction_length|]. intros tbl state.
  destruct (rev2_trace tbl state)
    as (w & R & w64 & V & d & v & Hw & HR & HlenR & Hw64 & HV & HlenV & Hd & _ & Hrev2).
  exists w, R, w64, V, d, v.
  split; [exact Hw|]. split; [exact HR|]. split; [exact HlenR|].
  split; [exact Hw64|]. split; [exact HV|]. cbv zeta.
  split; [rewrite !length_app, HlenR, HlenV; reflexivity|].
  split; [apply slice_to_array_app, slice_to_array_app, Hd|exact Hrev2].
Qed.

End pow_properties.

(** ** Machine words and loops, continued *)

(** ** Machine words *)

Lemma uint64_of_log2 (z : Z) : 0 <= z -> Z.log2 z < 64 -> uint64_range z.
Proof.
  intros Hz Hlog. split; [exact Hz|].
  destruct (decide (z = 0)) as [->|Hne]; [reflexivity|].
  apply Z.log2_lt_pow2; lia.
Qed.

Lemma log2_of_uint64 (z : Z) : uint64_range z -> Z.log2 z < 64.
Proof.
  intros [Hz Hlt]. destruct (decide (z = 0)) as [->|Hne]; [reflexivity|].
  apply Z.log2_lt_pow2; lia.
Qed.

Lemma lxor_uint64 (a b : Z) :
  uint64_range a -> uint64_range b -> uint64_range (Z.lxor a b).
Proof.
  intros Ha Hb. pose proof (log2_of_uint64 a Ha). pose proof (log2_of_uint64 b Hb).
  destruct Ha as [Ha _], Hb as [Hb _].
  apply uint64_of_log2; [apply Z.lxor_nonneg; tauto|].
  pose proof (Z.log2_lxor a b Ha Hb). lia.
Qed.

Lemma lor_uint64 (a b : Z) :
  uint64_range a -> uint64_range b -> uint64_range (Z.lor a b).
Proof.
  intros Ha Hb. pose proof (log2_of_uint64 a Ha). pose proof (log2_of_uint64 b Hb).
  destruct Ha as [Ha _], Hb as [Hb _].
  apply uint64_of_log2; [apply Z.lor_nonneg; tauto|].
  rewrite (Z.log2_lor a b Ha Hb). lia.
Qed.

Lemma wrap64_uint64 (z : Z) : uint64_range (wrap64 z).
Proof. unfold uint64_range, wrap64. apply Z.mod_pos_bound. reflexivity. Qed.

Lemma shiftr_uint64 (z n : Z) : 0 <= n -> uint64_range z -> uint64_range (Z.shiftr z n).
Proof.
  intros Hn [Hz Hlt]. rewrite Z.shiftr_div_pow2 by exact Hn.
  assert (0 < 2 ^ n) by (apply Z.pow_pos_nonneg; lia).
  split; [apply Z.div_pos; lia|].
  apply Z.div_lt_upper_bound; [lia|]. nia.
Qed.

Lemma for_pure_invariant {St : Type} (P : St -> Prop) (body : nat -> St -> St)
    (count start : nat) (s : St) :
  P s -> (forall i s, P s -> P (body i s)) -> P (for_pure start count body s).
Proof.
  intros Hs Hbody. revert start s Hs.
  induction count as [|count IH]; intros start s Hs; [exact Hs|].
  cbn [for_pure]. apply IH, Hbody, Hs.
Qed.

Lemma for_pure_ext {St : Type} (f g : nat -> St -> St) (count start : nat) (s : St) :
  (forall i s, f i s = g i s) -> for_pure start count f s = for_pure start count g s.
Proof.
  intros Hfg. revert start s. induction count as [|count IH]; intros start s;
    [reflexivity|].
  cbn [for_pure]. rewrite Hfg. apply IH.
Qed.

Lemma tableSize_index (z : Z) : 0 <= z mod tableSize < tableSize.
Proof. apply Z.mod_pos_bound. reflexivity. Qed.

(** X1: when every entry of the lookup table is a uint64 and the input is
    a uint64, the result of timeMemoryTradeoff is a uint64: the shift left,
    the only operation that can overflow, is wrapped, and the other
    operations stay in range. *)
Theorem timeMemoryTradeoff_uint64 (tbl : LookupTable) (input : Z) :
  (forall k, 0 <= k < tableSize -> uint64_range (tbl k)) ->
  uint64_range input ->
  uint64_range (timeMemoryTradeoff tbl input).
Proof.
  intros Htbl Hin. unfold timeMemoryTradeoff. cbv zeta.
  apply for_pure_invariant; [exact Hin|].
  intros _ r Hr. apply lor_uint64; [apply wrap64_uint64|].
  apply shiftr_uint64; [lia|].
  apply lxor_uint64; [exact Hr|apply Htbl, tableSize_index].
Qed.

(** X2: timeMemoryTradeoff reads the lookup table only at indices below
    tableSize: two tables that agree there give the same result, for every
    input. *)
Theorem timeMemoryTradeoff_reads_in_bounds (tbl1 tbl2 : LookupTable) (input : Z) :
  (forall k, 0 <= k < tableSize -> tbl1 k = tbl2 k) ->
  timeMemoryTradeoff tbl1 input = timeMemoryTradeoff tbl2 input.
Proof.
  intros Heq. unfold timeMemoryTradeoff. cbv zeta.
  apply for_pure_ext. intros _ r. rewrite (Heq _ (tableSize_index r)). reflexivity.
Qed.

Lemma table_entry_uint64 (k : Z) : uint64_range (table_entry k).
Proof.
  unfold table_entry.
  pose proof (be_value_bound
    (take 8 (vec_to_list (sha256.Sum256 (seed_of_index k))))) as Hb.
  rewrite length_take, length_vec_to_list in Hb. exact Hb.
Qed.

(** X3: generateHoohashLookupTable never panics and overwrites every entry
    of the array: the entries it leaves do not depend on what the table
    held before, each is a uint64, nothing outside the 2^20 indices is
    written, and running it again changes nothing. *)
Theorem generateHoohashLookupTable_rebuild (tbl1 tbl2 : LookupTable) :
  exists t1 t2,
    generateHoohashLookupTable tbl1 = Some t1 /\
    generateHoohashLookupTable tbl2 = Some t2 /\
    (forall k, 0 <= k < tableSize -> t1 k = t2 k /\ uint64_range (t1 k)) /\
    (forall k, ~ 0 <= k < tableSize -> t1 k = tbl1 k) /\
    exists t1',
      generateHoohashLookupTable t1 = Some t1' /\ forall k, t1' k = t1 k.
Proof.
  destruct (generateHoohashLookupTable_result tbl1) as (t1 & Hrun1 & Hent1).
  destruct (generateHoohashLookupTable_result tbl2) as (t2 & Hrun2 & Hent2).
  destruct (generateHoohashLookupTable_result t1) as (t1' & Hrun1' & Hent1').
  assert (Hin : forall k, 0 <= k < tableSize -> t1 k = table_entry k).
  { intros k Hk. rewrite Hent1. destruct (decide _); [reflexivity|contradiction]. }
  assert (Hin2 : forall k, 0 <= k < tableSize -> t2 k = table_entry k).
  { intros k Hk. rewrite Hent2. destruct (decide _); [reflexivity|contradiction]. }
  exists t1, t2. split; [exact Hrun1|]. split; [exact Hrun2|]. split; [|split].
  - intros k Hk. rewrite Hin, Hin2 by exact Hk.
    split; [reflexivity|apply table_entry_uint64].
  - intros k Hk. rewrite Hent1. destruct (decide _); [contradiction|reflexivity].
  - exists t1'. split; [exact Hrun1'|]. intros k. rewrite Hent1'.
    destruct (decide _) as [Hk|]; [|reflexivity]. symmetry. apply Hin, Hk.
Qed.

(** *** [verifiableDelayFunction] as a power *)

(** *** verifiableDelayFunction *)

Lemma vdf_prime_pos : 0 < vdf_prime.
Proof. reflexivity. Qed.

Lemma vdf_round_mod (x : Z) : vdf_round (x mod vdf_prime) = vdf_round x.
Proof.
  unfold vdf_round. rewrite <- Z.mul_mod by (pose proof vdf_prime_pos; lia).
  reflexivity.
Qed.

(** Repeated squaring: [n + 1] rounds raise to the power [2^(n+1)]. *)
Lemma vdf_rounds_power (n : nat) (x : Z) :
  Nat.iter (S n) vdf_round x = x ^ (2 ^ Z.of_nat (S n)) mod vdf_prime.
Proof.
  induction n as [|n IH].
  - cbn [Nat.iter]. unfold vdf_round. change (2 ^ Z.of_nat 1) with 2.
    rewrite Z.pow_2_r. reflexivity.
  - rewrite Nat.iter_succ, IH. rewrite vdf_round_mod. unfold vdf_round.
    rewrite <- Z.pow_add_r by (apply Z.pow_nonneg; lia).
    f_equal. f_equal. rewrite (Nat2Z.inj_succ (S n)), Z.pow_succ_r by lia. lia.
Qed.

Lemma vdf_rounds_congruent (n : nat) (x y : Z) :
  x mod vdf_prime = y mod vdf_prime ->
  Nat.iter (S n) vdf_round x = Nat.iter (S n) vdf_round y.
Proof.
  intros Hxy. rewrite !Nat.iter_succ_r.
  rewrite <- (vdf_round_mod x), <- (vdf_round_mod y), Hxy. reflexivity.
Qed.

Lemma vdf_round_opp (x y : Z) :
  (x + y) mod vdf_prime = 0 -> vdf_round x = vdf_round y.
Proof.
  intros Hxy. unfold vdf_round.
  pose proof vdf_prime_pos as Hp.
  apply Z.mod_divide in Hxy; [|lia]. destruct Hxy as [k Hk].
  replace (x * x) with (y * y + (k * (x - y)) * vdf_prime) by nia.
  apply Z.mod_add. lia.
Qed.

Lemma vdf_rounds_opp (n : nat) (x y : Z) :
  (x + y) mod vdf_prime = 0 ->
  Nat.iter (S n) vdf_round x = Nat.iter (S n) vdf_round y.
Proof.
  intros Hxy. rewrite !Nat.iter_succ_r, (vdf_round_opp x y Hxy). reflexivity.
Qed.

Lemma SetBytes_leading_zeros (k : nat) (input : list byte) :
  big.SetBytes (replicate k x00 ++ input) = big.SetBytes input.
Proof.
  induction k as [|k IH]; [reflexivity|].
  cbn [replicate app]. unfold big.SetBytes, binary.be_value in *.
  cbn [foldl]. exact IH.
Qed.

(** X4: verifiableDelayFunction never panics and returns the 32 bytes of
    SHA-256 of the shortest big-endian encoding of x^(2^1000) mod p, where x
    is the input read as a big-endian number and p = 2^256 - 2^32 - 977;
    leading zero bytes of the input change nothing. *)
Theorem verifiableDelayFunction_power (input : list byte) :
  verifiableDelayFunction input
  = Some (vec_to_list (sha256.Sum256 (big.Bytes
            (big.SetBytes input ^ (2 ^ 1000) mod (2 ^ 256 - 2 ^ 32 - 977))))) /\
  (exists out, verifiableDelayFunction input = Some out /\ length out = 32%nat) /\
  forall k, verifiableDelayFunction (replicate k x00 ++ input)
            = verifiableDelayFunction input.
Proof.
  split; [|split].
  - rewrite verifiableDelayFunction_value.
    change 1000%nat with (S 999). rewrite vdf_rounds_power. reflexivity.
  - destruct (verifiableDelayFunction_array input) as [h Hh].
    eexists. split; [exact Hh|apply length_vec_to_list].
  - intros k. rewrite !verifiableDelayFunction_value, SetBytes_leading_zeros.
    reflexivity.
Qed.

(** X5: two inputs whose numbers are congruent modulo p, or opposite
    modulo p (their sum is a multiple of p), have the same
    verifiableDelayFunction output. *)
Theorem verifiableDelayFunction_collisions (input1 input2 : list byte) :
  big.SetBytes input1 mod (2 ^ 256 - 2 ^ 32 - 977)
    = big.SetBytes input2 mod (2 ^ 256 - 2 ^ 32 - 977) \/
  (big.SetBytes input1 + big.SetBytes input2) mod (2 ^ 256 - 2 ^ 32 - 977) = 0 ->
  verifiableDelayFunction input1 = verifiableDelayFunction input2.
Proof.
  fold vdf_prime. intros Hrel. rewrite !verifiableDelayFunction_value.
  do 4 f_equal. change 1000%nat with (S 999).
  destruct Hrel as [Hcong|Hopp].
  - apply vdf_rounds_congruent, Hcong.
  - apply vdf_rounds_opp, Hopp.
Qed.

(** *** Work values and the target *)

Lemma byte_of_Z_low (a r : Z) : byte_of_Z (a + 256 * r) = byte_of_Z a.
Proof.
  unfold byte_of_Z. rewrite (Z.mul_comm 256 r), Z.mod_add by lia. reflexivity.
Qed.

Lemma le_bytes_le_value (l : list byte) :
  binary.le_bytes (length l) (binary.le_value l) = l.
Proof.
  induction l as [|x l IH]; [reflexivity|].
  cbn [length binary.le_bytes binary.le_value foldr].
  fold (binary.le_value l).
  pose proof (byte_to_Z_range x) as Hx.
  rewrite byte_of_Z_low, byte_of_to_Z. f_equal.
  replace ((byte_to_Z x + 256 * binary.le_value l) / 256) with (binary.le_value l);
    [exact IH|].
  rewrite Z.add_comm, Z.mul_comm, Z.div_add_l by lia.
  rewrite (Z.div_small (byte_to_Z x)) by lia. lia.
Qed.

Section pow_more.

Context {collab : Collaborators}.
Context {H : Type} {mutableHeader : MutableBlockHeader H}.
Context {headerHasher : HeaderHasher H}.

#[local] Opaque sha256.Sum256.

(** X6: toBig never panics; its value is below 2^256 and its 32-byte
    little-endian encoding is the digest again, so two different digests
    never give the same number. *)
Theorem toBig_round_trip (hash1 hash2 : DomainHash) :
  (exists v, toBig hash1 = Some v /\ 0 <= v < 2 ^ 256 /\
             binary.le_bytes 32 v = vec_to_list hash1) /\
  (toBig hash1 = toBig hash2 -> hash1 = hash2).
Proof.
  assert (Hback : forall h : DomainHash,
            binary.le_bytes 32 (binary.le_value (vec_to_list h)) = vec_to_list h).
  { intros h. pose proof (le_bytes_le_value (vec_to_list h)) as Hl.
    rewrite length_vec_to_list in Hl. exact Hl. }
  split.
  - eexists. split; [apply toBig_little_endian|].
    split; [|apply Hback].
    apply (toBig_bound hash1), toBig_little_endian.
  - rewrite !toBig_little_endian. intros [= Heq].
    apply vec_to_list_inj2. rewrite <- (Hback hash1), <- (Hback hash2), Heq.
    reflexivity.
Qed.

Lemma rev1_value (state : State) :
  exists w,
    powMessage Blake3HashWriter state = Some w /\
    CalculateProofOfWorkValueHoohashRev1 state
    = toBig (Blake3Hash (HoohashMatrixMultiplication (mat state) (hashes.Finalize w))).
Proof.
  unfold CalculateProofOfWorkValueHoohashRev1. rewrite powMessage_written.
  eexists. split; reflexivity.
Qed.

(** X7: each of the three work-value functions (CalculateProofOfWorkValue
    and the Hoohash variants Rev1 and Rev2) returns, for every state and
    every lookup table, a non-negative number below 2^256. *)
Theorem work_values_256_bits (tbl : LookupTable) (state : State) :
  (exists v, CalculateProofOfWorkValue state = Some v /\ 0 <= v < 2 ^ 256) /\
  (exists v, CalculateProofOfWorkValueHoohashRev1 state = Some v /\ 0 <= v < 2 ^ 256) /\
  (exists v, CalculateProofOfWorkValueHoohashRev2 tbl state = Some v /\ 0 <= v < 2 ^ 256).
Proof.
  split; [apply CalculateProofOfWorkValue_total|]. split.
  - destruct (rev1_value state) as (w & _ & Hrev1).
    destruct (toBig_total
      (Blake3Hash (HoohashMatrixMultiplication (mat state) (hashes.Finalize w))))
      as [v Hv].
    exists v. split; [rewrite Hrev1; exact Hv|exact (toBig_bound _ _ Hv)].
  - destruct (rev2_trace tbl state)
      as (_ & _ & _ & _ & d & v & _ & _ & _ & _ & _ & _ & _ & Hv & Hrev2).
    exists v. split; [exact Hrev2|exact (toBig_bound _ _ Hv)].
Qed.

(** The work value does not read the target. *)
Lemma work_value_ignores_target (s s' : State) :
  mat s = mat s' -> Timestamp s = Timestamp s' -> Nonce s = Nonce s' ->
  prePowHash s = prePowHash s' ->
  CalculateProofOfWorkValue s = CalculateProofOfWorkValue s'.
Proof.
  intros Hm Ht Hn Hp. unfold CalculateProofOfWorkValue.
  rewrite !powMessage_written, Hm, Ht, Hn, Hp. reflexivity.
Qed.

Lemma CheckProofOfWork_decision (state : State) :
  exists v, CalculateProofOfWorkValue state = Some v /\ 0 <= v < 2 ^ 256 /\
    CheckProofOfWork state = Some (bool_decide (v <= Target state)).
Proof.
  destruct (CalculateProofOfWorkValue_total state) as (v & Hv & Hb).
  exists v. split; [exact Hv|]. split; [exact Hb|].
  unfold CheckProofOfWork. rewrite Hv. cbn [mbind option_bind].
  rewrite Cmp_le. reflexivity.
Qed.

(** X8: raising the target never turns an accepted state into a rejected
    one: if CheckProofOfWork accepts a state, it accepts every state with
    the same matrix, timestamp, nonce and pre-PoW hash and a target that is
    not smaller. *)
Theorem CheckProofOfWork_monotone (s s' : State) :
  mat s = mat s' -> Timestamp s = Timestamp s' -> Nonce s = Nonce s' ->
  prePowHash s = prePowHash s' -> Target s <= Target s' ->
  CheckProofOfWork s = Some true -> CheckProofOfWork s' = Some true.
Proof.
  intros Hm Ht Hn Hp Hle.
  destruct (CheckProofOfWork_decision s) as (v & Hv & _ & Hc).
  destruct (CheckProofOfWork_decision s') as (v' & Hv' & _ & Hc').
  rewrite (work_value_ignores_target s s' Hm Ht Hn Hp), Hv' in Hv.
  injection Hv as <-. rewrite Hc, Hc'. intros [= Hd]. f_equal.
  apply bool_decide_eq_true_1 in Hd. apply bool_decide_eq_true_2. lia.
Qed.

(** X9: CheckProofOfWork rejects every state whose target is negative and
    accepts every state whose target is at least 2^256 - 1. *)
Theorem CheckProofOfWork_extreme_targets (state : State) :
  (Target state < 0 -> CheckProofOfWork state = Some false) /\
  (2 ^ 256 - 1 <= Target state -> CheckProofOfWork state = Some true).
Proof.
  destruct (CheckProofOfWork_decision state) as (v & _ & Hb & Hc).
  rewrite Hc. split; intros Ht; f_equal.
  - apply bool_decide_eq_false_2. lia.
  - apply bool_decide_eq_true_2. lia.
Qed.

(** X10: CheckProofOfWorkByBits never panics; its verdict is whether the
    work value of the state built from the header is at most
    CompactToBig(header.Bits()), the header it leaves has the timestamp and
    the nonce it had, a negative target gives false, and the verdict is the
    same whatever the lookup table held before. *)
Theorem CheckProofOfWorkByBits_verdict (header : H) (tbl : LookupTable) :
  exists state header' tbl' v,
    NewState header tbl = Some (state, header', tbl') /\
    CalculateProofOfWorkValue state = Some v /\
    CheckProofOfWorkByBits header tbl
    = Some (bool_decide (v <= CompactToBig (externalapi.Bits header)), header', tbl') /\
    externalapi.TimeInMilliseconds header' = externalapi.TimeInMilliseconds header /\
    externalapi.Nonce header' = externalapi.Nonce header /\
    (CompactToBig (externalapi.Bits header) < 0 ->
       CheckProofOfWorkByBits header tbl = Some (false, header', tbl')) /\
    (forall tbl0, exists tbl0',
       CheckProofOfWorkByBits header tbl0
       = Some (bool_decide (v <= CompactToBig (externalapi.Bits header)), header', tbl0')).
Proof.
  assert (Hany : forall t, exists t',
            NewState header t = Some
              ({| mat := generateMatrix (HeaderHash (externalapi.SetNonce 0
                           (externalapi.SetTimeInMilliseconds 0 header)));
                  Timestamp := externalapi.TimeInMilliseconds header;
                  Nonce := externalapi.Nonce header;
                  Target := CompactToBig (externalapi.Bits header);
                  prePowHash := HeaderHash (externalapi.SetNonce 0
                           (externalapi.SetTimeInMilliseconds 0 header)) |},
               externalapi.SetNonce (externalapi.Nonce header)
                 (externalapi.SetTimeInMilliseconds
                    (externalapi.TimeInMilliseconds header)
                    (externalapi.SetNonce 0
                       (externalapi.SetTimeInMilliseconds 0 header))), t')).
  { intros t. destruct (NewState_returns header t) as (t' & _ & Hnew).
    exists t'. exact Hnew. }
  destruct (Hany tbl) as (tbl' & Hnew).
  match type of Hnew with _ = Some (?st, ?h', _) =>
    set (state := st) in *; set (header' := h') in * end.
  destruct (CheckProofOfWork_decision state) as (v & Hv & Hb & Hc).
  assert (Hrun : forall t t', NewState header t = Some (state, header', t') ->
            CheckProofOfWorkByBits header t
            = Some (bool_decide (v <= CompactToBig (externalapi.Bits header)),
                    header', t')).
  { intros t t' Ht. unfold CheckProofOfWorkByBits.
    eapply bind_eq; [exact Ht|]. cbn [fst snd].
    eapply bind_eq; [exact Hc|]. reflexivity. }
  exists state, header', tbl', v.
  split; [exact Hnew|]. split; [exact Hv|]. split; [apply Hrun, Hnew|].
  split; [|split; [|split]].
  - subst header'.
    rewrite externalapi.time_SetNonce, externalapi.time_SetTime. reflexivity.
  - subst header'. rewrite externalapi.nonce_SetNonce. reflexivity.
  - intros Hneg. rewrite (Hrun _ _ Hnew). do 3 f_equal.
    apply bool_decide_eq_false_2. lia.
  - intros tbl0. destruct (Hany tbl0) as (tbl0' & Hnew0).
    exists tbl0'. apply Hrun, Hnew0.
Qed.

Lemma nonce_after_increments (state : State) (n : nat) :
  uint64_range (Nonce state) ->
  Nonce (Nat.iter n IncrementNonce state) = (Nonce state + Z.of_nat n) mod 2 ^ 64.
Proof.
  intros Hrange. induction n as [|n IH].
  - change (Nat.iter 0 IncrementNonce state) with state.
    rewrite Z.add_0_r, Z.mod_small by exact Hrange. reflexivity.
  - rewrite Nat.iter_succ. unfold IncrementNonce at 1. cbn [Nonce].
    unfold wrap64. rewrite IH, Nat2Z.inj_succ, Zplus_mod_idemp_l. f_equal. lia.
Qed.

(** X11: starting from a uint64 nonce, two different numbers of
    IncrementNonce calls less than 2^64 apart leave different nonces: the
    counter visits every value once before it repeats. *)
Theorem IncrementNonce_no_repeat (state : State) (i j : nat) :
  uint64_range (Nonce state) ->
  (i < j)%nat -> Z.of_nat j - Z.of_nat i < 2 ^ 64 ->
  Nonce (Nat.iter i IncrementNonce state) <> Nonce (Nat.iter j IncrementNonce state).
Proof.
  intros Hrange Hij Hwin.
  rewrite !nonce_after_increments by exact Hrange. intros Heq.
  assert (Hdiv : (Z.of_nat j - Z.of_nat i) mod 2 ^ 64 = 0).
  { replace (Z.of_nat j - Z.of_nat i)
      with ((Nonce state + Z.of_nat j) - (Nonce state + Z.of_nat i)) by lia.
    rewrite Zminus_mod, Heq, Z.sub_diag. reflexivity. }
  rewrite Z.mod_small in Hdiv by lia. lia.
Qed.

(** X12: for maxBlockLevel in [-2^63 + 256, 2^63), BlockLevel never panics
    and its level lies between maxBlockLevel - 256 and max(0,
    maxBlockLevel); for a header without parents the lookup table is left
    as it was, for every other header it is the regenerated one. *)
Theorem BlockLevel_bounds (header : H) (maxBlockLevel : Z) (tbl : LookupTable) :
  - 2 ^ 63 + 256 <= maxBlockLevel < 2 ^ 63 ->
  exists level tbl',
    BlockLevel header maxBlockLevel tbl = Some (level, tbl') /\
    maxBlockLevel - 256 <= level <= Z.max 0 maxBlockLevel /\
    (length (externalapi.DirectParents header) = 0%nat -> tbl' = tbl) /\
    (length (externalapi.DirectParents header) <> 0%nat ->
       generateHoohashLookupTable tbl = Some tbl').
Proof.
  intros Hm.
  destruct (BlockLevel_branches header maxBlockLevel tbl) as [Hgenesis Hother].
  destruct (decide (length (externalapi.DirectParents header) = 0%nat)) as [Hp|Hp].
  - exists maxBlockLevel, tbl. split; [apply Hgenesis, Hp|].
    split; [lia|]. split; [reflexivity|contradiction].
  - destruct (Hother Hp) as (state & header' & tbl' & v & level
                             & Hnew & _ & Hlevel & Hmax & Hbits).
    exists level, tbl'. split; [exact Hlevel|].
    rewrite wrap_int_id in Hmax by (unfold int_range; lia).
    split; [lia|]. split; [contradiction|]. intros _.
    destruct (NewState_returns header tbl) as (tbl'' & Hgen & Hnew').
    rewrite Hnew in Hnew'. injection Hnew' as _ _ <-. exact Hgen.
Qed.

End pow_more.

(** *** [memoryHardFunction]: the layout of the output *)

Lemma LittleEndian_Uint64_uint64 (b : list byte) (v : Z) :
  binary.LittleEndian_Uint64 b = Some v -> uint64_range v.
Proof.
  unfold binary.LittleEndian_Uint64. destruct (decide _) as [Hb|]; [|discriminate].
  intros [= <-]. pose proof (le_value_bound (take 8 b)) as Hv.
  rewrite length_take_le in Hv by exact Hb. exact Hv.
Qed.


Lemma words_le_app (ws1 ws2 : list Z) :
  words_le (ws1 ++ ws2) = words_le ws1 ++ words_le ws2.
Proof.
  induction ws1 as [|w ws1 IH]; [reflexivity|].
  cbn [app words_le]. rewrite IH, app_assoc. reflexivity.
Qed.

Lemma length_words_le (ws : list Z) : length (words_le ws) = (length ws * 8)%nat.
Proof.
  induction ws as [|w ws IH]; [reflexivity|].
  cbn [words_le]. rewrite length_app, length_le_bytes, IH. cbn [length]. lia.
Qed.

Lemma drop_words_le (ws : list Z) (i : nat) :
  drop (i * 8) (words_le ws) = words_le (drop i ws).
Proof.
  revert ws. induction i as [|i IH]; intros ws; [reflexivity|].
  destruct ws as [|w ws]; [reflexivity|].
  cbn [words_le drop].
  change (S i * 8)%nat with (8 + i * 8)%nat.
  rewrite <- drop_drop, drop_app_length'; [apply IH|].
  symmetry. apply length_le_bytes.
Qed.

Lemma word_of_words_le (ws : list Z) (i : nat) (w : Z) :
  ws !! i = Some w -> uint64_range w ->
  binary.LittleEndian_Uint64 (drop (i * 8) (words_le ws)) = Some w.
Proof.
  intros Hw Hrange. rewrite drop_words_le.
  rewrite (drop_S _ _ _ Hw). cbn [words_le].
  rewrite LittleEndian_Uint64_take
    by (rewrite length_app, length_le_bytes; lia).
  rewrite take_app_length' by (symmetry; apply length_le_bytes).
  rewrite le_value_le_bytes. f_equal. apply Z.mod_small. exact Hrange.
Qed.

Section mhf_more.

Context {collab : Collaborators}.

(** The combine loop writes the words one after the other. *)
Lemma mhf_combine_words (memory : list Z) :
  (8 <= length memory)%nat ->
  mhf_combine memory = Some (words_le (take 8 memory)).
Proof.
  intros Hlen. unfold mhf_combine. cbv zeta.
  edestruct (for_range_invariant
    (fun (i : nat) (r : list byte) =>
       (i <= 8)%nat /\
       r = words_le (take i memory)
           ++ replicate (64 - i * 8) x00))
    as (r & Hrun & _ & Hr); [| |rewrite Hrun].
  - split; [lia|reflexivity].
  - intros i r Hi [_ ->].
    destruct (lookup_lt_is_Some_2 memory i) as [mi Hmi]; [lia|].
    assert (Hpre : length (words_le (take i memory))
                   = (i * 8)%nat).
    { rewrite length_words_le, length_take_le by lia. reflexivity. }
    rewrite Hmi. cbn [mbind option_bind]. unfold slice_from.
    rewrite length_app, Hpre, length_replicate.
    destruct (decide _) as [_|]; [|lia]. cbn [mbind option_bind].
    rewrite drop_app_length' by (symmetry; exact Hpre).
    unfold binary.LittleEndian_PutUint64. rewrite length_replicate.
    destruct (decide _) as [_|]; [|lia]. cbn [mbind option_bind].
    eexists. split; [reflexivity|]. split; [lia|].
    rewrite take_app_length' by (symmetry; exact Hpre).
    rewrite drop_replicate, (take_S_r _ _ _ Hmi), words_le_app.
    cbn [words_le]. rewrite app_nil_r, <- !app_assoc.
    do 3 f_equal. lia.
  - rewrite Hr. cbn [replicate Nat.sub Nat.mul Nat.add]. f_equal.
    replace (64 - (0 + 8) * 8)%nat with 0%nat by lia. apply app_nil_r.
Qed.

Lemma mhf_mix_round_writes (memory memory' : list Z) (j : nat) :
  (mj ← memory !! j;
   let index1 := mj mod memorySize in
   let index2 := Z.shiftr mj 32 mod memorySize in
   m1 ← memory !! Z.to_nat index1;
   m2 ← memory !! Z.to_nat index2;
   let hash := [] in
   let hash := hash ++ binary.le_bytes 8 m1 in
   let hash := hash ++ binary.le_bytes 8 m2 in
   v ← binary.LittleEndian_Uint64 (vec_to_list (blake2b_Sum512 hash));
   Some (<[j := v]> memory)) = Some memory' ->
  exists v, uint64_range v /\ memory' = <[j := v]> memory.
Proof.
  destruct (memory !! j) as [mj|]; [|discriminate]. cbn [mbind option_bind].
  cbv zeta.
  destruct (memory !! Z.to_nat (mj mod memorySize)) as [m1|]; [|discriminate].
  cbn [mbind option_bind].
  destruct (memory !! Z.to_nat (Z.shiftr mj 32 mod memorySize)) as [m2|];
    [|discriminate].
  cbn [mbind option_bind].
  destruct (binary.LittleEndian_Uint64 _) as [v|] eqn:Hv; [|discriminate].
  cbn [mbind option_bind]. intros [= <-].
  exists v. split; [exact (LittleEndian_Uint64_uint64 _ _ Hv)|reflexivity].
Qed.

Lemma mhf_mix_words (memory : list Z) :
  length memory = Z.to_nat memorySize -> Forall uint64_range memory ->
  exists memory',
    mhf_mix memory = Some memory' /\ length memory' = Z.to_nat memorySize /\
    Forall uint64_range memory'.
Proof.
  intros Hlen Hwords. unfold mhf_mix.
  edestruct (for_range_invariant
               (fun (_ : nat) (m : list Z) =>
                  length m = Z.to_nat memorySize /\ Forall uint64_range m))
    as (m & Hrun & Hm); [exact (conj Hlen Hwords)| |
                         exists m; split; [exact Hrun|exact Hm]].
  intros i m Hi Hm.
  edestruct (for_range_invariant
               (fun (_ : nat) (m : list Z) =>
                  length m = Z.to_nat memorySize /\ Forall uint64_range m))
    as (m' & Hrun' & Hm'); [exact Hm| |
                            exists m'; split; [exact Hrun'|exact Hm']].
  intros j m0 Hj [Hm0 Hw0].
  destruct (mhf_mix_round m0 j Hm0) as (m1 & Hround & Hm1); [lia|].
  exists m1. split; [exact Hround|]. split; [exact Hm1|].
  destruct (mhf_mix_round_writes _ _ _ Hround) as (v & Hv & ->).
  apply Forall_insert; assumption.
Qed.

(** X13: memoryHardFunction returns a value exactly when its input has at
    least 8 bytes; on a shorter input it panics (in reading the seed). *)
Theorem memoryHardFunction_panics_iff_short (input : list byte) :
  (is_Some (memoryHardFunction input) <-> (8 <= length input)%nat) /\
  ((length input < 8)%nat -> memoryHardFunction input = None).
Proof.
  assert (Hshort : (length input < 8)%nat -> memoryHardFunction input = None).
  { intros Hlt. unfold memoryHardFunction.
    rewrite mhf_initialize_short by exact Hlt. reflexivity. }
  split; [|exact Hshort]. split.
  - intros [out Hout]. destruct (decide (8 <= length input)%nat) as [|Hlt];
      [assumption|]. rewrite Hshort in Hout by lia. discriminate.
  - intros Hlen. destruct (memoryHardFunction_length input Hlen) as (out & Hout & _).
    exists out. exact Hout.
Qed.

(** X14: on an input of at least 8 bytes, the output of memoryHardFunction
    is the little-endian encoding, 8 bytes each, of the first 8 words of
    the 1024-word memory after mixing; every word of that memory is a
    uint64, and decoding the output at offset 8 i gives word i back. *)
Theorem memoryHardFunction_layout (input : list byte) :
  (8 <= length input)%nat ->
  exists memory out,
    mhf_initialize input ≫= mhf_mix = Some memory /\
    length memory = 1024%nat /\
    Forall uint64_range memory /\
    memoryHardFunction input = Some out /\
    out = words_le (take 8 memory) /\
    forall i w, (i < 8)%nat -> memory !! i = Some w ->
      binary.LittleEndian_Uint64 (drop (i * 8) out) = Some w.
Proof.
  intros Hin.
  pose proof (mhf_initialize_seed input Hin) as Hinit.
  assert (Hseed : uint64_range (binary.le_value (take 8 input))).
  { apply (LittleEndian_Uint64_uint64 input), LittleEndian_Uint64_take, Hin. }
  destruct (mhf_mix_words (replicate (Z.to_nat memorySize)
                             (binary.le_value (take 8 input))))
    as (memory & Hmix & Hlen & Hwords).
  { apply length_replicate. }
  { apply Forall_replicate, Hseed. }
  assert (Hlen' : length memory = 1024%nat) by (rewrite Hlen; reflexivity).
  exists memory, (words_le (take 8 memory)).
  split; [rewrite Hinit; exact Hmix|]. split; [exact Hlen'|].
  split; [exact Hwords|]. split; [|split; [reflexivity|]].
  - unfold memoryHardFunction.
    eapply bind_eq; [exact Hinit|]. eapply bind_eq; [exact Hmix|].
    apply mhf_combine_words. lia.
  - intros i w Hi Hw. apply word_of_words_le.
    + rewrite lookup_take_lt by lia. exact Hw.
    + rewrite Forall_lookup in Hwords. exact (Hwords i w Hw).
Qed.

End mhf_more.

(** ** Package [subnetworks] *)

Lemma be_value_app (l1 l2 : list byte) :
  binary.be_value (l1 ++ l2)
  = binary.be_value l1 * 256 ^ Z.of_nat (length l2) + binary.be_value l2.
Proof.
  induction l2 as [|x l2 IH] using rev_ind.
  - rewrite app_nil_r. cbn. lia.
  - rewrite app_assoc, !be_value_snoc, IH, length_app, Nat2Z.inj_add.
    cbn [length]. rewrite Z.pow_add_r by lia. change (256 ^ Z.of_nat 1) with 256.
    lia.
Qed.

Lemma be_value_cons (x : byte) (l : list byte) :
  binary.be_value (x :: l)
  = byte_to_Z x * 256 ^ Z.of_nat (length l) + binary.be_value l.
Proof.
  change (x :: l) with ([x] ++ l). rewrite be_value_app.
  change (binary.be_value [x]) with (0 * 256 + byte_to_Z x). lia.
Qed.

Lemma byte_to_Z_inj (x y : byte) : byte_to_Z x = byte_to_Z y -> x = y.
Proof. intros Hxy. rewrite <- (byte_of_to_Z x), <- (byte_of_to_Z y), Hxy. reflexivity. Qed.

(** On slices of one length, [bytes.Compare] is the comparison of the
    big-endian values. *)
Lemma Compare_be_value (a b : list byte) :
  length a = length b ->
  bytes.Compare a b
  = match binary.be_value a ?= binary.be_value b with
    | Lt => -1
    | Eq => 0
    | Gt => 1
    end.
Proof.
  revert b. induction a as [|x a IH]; intros [|y b] Hlen; try discriminate.
  - reflexivity.
  - cbn [bytes.Compare]. injection Hlen as Hlen.
    rewrite !be_value_cons, <- Hlen.
    pose proof (be_value_bound a) as Ha. pose proof (be_value_bound b) as Hb.
    rewrite <- Hlen in Hb.
    set (m := 256 ^ Z.of_nat (length a)) in *.
    destruct (Z.ltb_spec (byte_to_Z x) (byte_to_Z y)) as [Hlt|Hge].
    + assert (byte_to_Z x * m + binary.be_value a
              < byte_to_Z y * m + binary.be_value b) as Hcmp by nia.
      apply Z.compare_lt_iff in Hcmp. rewrite Hcmp. reflexivity.
    + destruct (Z.ltb_spec (byte_to_Z y) (byte_to_Z x)) as [Hgt|Hle].
      * assert (byte_to_Z y * m + binary.be_value b
                < byte_to_Z x * m + binary.be_value a) as Hcmp by nia.
        apply Z.compare_gt_iff in Hcmp. rewrite Hcmp. reflexivity.
      * assert (Heq : byte_to_Z x = byte_to_Z y) by lia.
        rewrite Heq, (IH b Hlen).
        rewrite Z.add_compare_mono_l. reflexivity.
Qed.

Lemma be_value_inj (a b : list byte) :
  length a = length b -> binary.be_value a = binary.be_value b -> a = b.
Proof.
  intros Hlen Hv.
  rewrite <- (reverse_involutive a), <- (reverse_involutive b) in Hv.
  rewrite !be_value_reverse in Hv.
  apply (f_equal (binary.le_bytes (length (reverse a)))) in Hv.
  rewrite le_bytes_le_value in Hv.
  replace (length (reverse a)) with (length (reverse b)) in Hv
    by (rewrite !length_reverse; congruence).
  rewrite le_bytes_le_value in Hv.
  apply (f_equal reverse) in Hv. rewrite !reverse_involutive in Hv. exact Hv.
Qed.

Lemma Less_be_value {n : nat} (a b : vec byte n) :
  subnetworks.Less a b
  = bool_decide (binary.be_value (vec_to_list a) < binary.be_value (vec_to_list b)).
Proof.
  unfold subnetworks.Less.
  rewrite Compare_be_value by (rewrite !length_vec_to_list; reflexivity).
  destruct (Z.compare_spec (binary.be_value (vec_to_list a))
                           (binary.be_value (vec_to_list b)));
    symmetry; [apply bool_decide_eq_false_2|apply bool_decide_eq_true_2
              |apply bool_decide_eq_false_2]; lia.
Qed.

(** X15: Less(a, b) holds exactly when a, read as a big-endian number, is
    smaller than b; bytes.Compare gives 0 only on equal arrays and changes
    sign when its arguments are swapped. *)
Theorem Less_numeric_order {n : nat} (a b : vec byte n) :
  (subnetworks.Less a b = true <->
     binary.be_value (vec_to_list a) < binary.be_value (vec_to_list b)) /\
  (bytes.Compare (vec_to_list a) (vec_to_list b) = 0 <-> a = b) /\
  bytes.Compare (vec_to_list b) (vec_to_list a)
  = - bytes.Compare (vec_to_list a) (vec_to_list b).
Proof.
  assert (Hlen : length (vec_to_list a) = length (vec_to_list b))
    by (rewrite !length_vec_to_list; reflexivity).
  split; [|split].
  - rewrite Less_be_value. apply bool_decide_eq_true.
  - rewrite (Compare_be_value _ _ Hlen).
    destruct (Z.compare_spec (binary.be_value (vec_to_list a))
                             (binary.be_value (vec_to_list b))) as [Heq|Hlt|Hgt].
    + split; [intros _|reflexivity].
      apply vec_to_list_inj2, be_value_inj; assumption.
    + split; [discriminate|]. intros ->. lia.
    + split; [discriminate|]. intros ->. lia.
  - rewrite (Compare_be_value _ _ Hlen), (Compare_be_value _ _ (eq_sym Hlen)).
    rewrite (Z.compare_antisym (binary.be_value (vec_to_list a))).
    destruct (binary.be_value (vec_to_list a) ?= binary.be_value (vec_to_list b));
      reflexivity.
Qed.

(** X16: Less is a strict total order on the identifiers: irreflexive,
    asymmetric, transitive, and any two different identifiers are ordered
    one way or the other. *)
Theorem Less_strict_total_order {n : nat} (a b c : vec byte n) :
  subnetworks.Less a a = false /\
  (subnetworks.Less a b = true -> subnetworks.Less b a = false) /\
  (subnetworks.Less a b = true -> subnetworks.Less b c = true ->
     subnetworks.Less a c = true) /\
  (subnetworks.Less a b = true \/ a = b \/ subnetworks.Less b a = true).
Proof.
  rewrite !Less_be_value.
  split; [apply bool_decide_eq_false_2; lia|]. split; [|split].
  - intros Hab%bool_decide_eq_true_1. apply bool_decide_eq_false_2. lia.
  - intros Hab%bool_decide_eq_true_1 Hbc%bool_decide_eq_true_1.
    apply bool_decide_eq_true_2. lia.
  - destruct (Z.lt_total (binary.be_value (vec_to_list a))
                         (binary.be_value (vec_to_list b))) as [Hlt|[Heq|Hgt]].
    + left. apply bool_decide_eq_true_2, Hlt.
    + right. left. apply vec_to_list_inj2, be_value_inj; [|exact Heq].
      rewrite !length_vec_to_list. reflexivity.
    + right. right. apply bool_decide_eq_true_2, Hgt.
Qed.

(** ** Package [rpc] *)

Lemma hex_length (b : list byte) : String.length (hex b) = (2 * length b)%nat.
Proof.
  induction b as [|x b IH]; [reflexivity|].
  cbn [hex String.length length]. rewrite IH. lia.
Qed.

Section rpc_properties.

Context {names : rpc.Names} {packages : rpc.Packages}.

Import rpc.

(** *** createVinList *)

Lemma createVinList_loop (ins : list TxIn) (done rest : list Vin) :
  length rest = length ins ->
  range_loop_opt
    (fun i txIn vinList =>
       let disbuf := DisasmString (SignatureScript txIn) in
       vinEntry ← vinList !! i;
       let vinEntry :=
         {| Vin_TxID := TxID_String (OutPoint_TxID (PreviousOutpoint txIn));
            Vin_Vout := Vin_Vout vinEntry;
            Vin_Sequence := Vin_Sequence vinEntry;
            Vin_ScriptSig := Vin_ScriptSig vinEntry |} in
       let vinEntry :=
         {| Vin_TxID := Vin_TxID vinEntry;
            Vin_Vout := OutPoint_Index (PreviousOutpoint txIn);
            Vin_Sequence := Vin_Sequence vinEntry;
            Vin_ScriptSig := Vin_ScriptSig vinEntry |} in
       let vinEntry :=
         {| Vin_TxID := Vin_TxID vinEntry;
            Vin_Vout := Vin_Vout vinEntry;
            Vin_Sequence := TxIn_Sequence txIn;
            Vin_ScriptSig := Vin_ScriptSig vinEntry |} in
       let vinEntry :=
         {| Vin_TxID := Vin_TxID vinEntry;
            Vin_Vout := Vin_Vout vinEntry;
            Vin_Sequence := Vin_Sequence vinEntry;
            Vin_ScriptSig :=
              Some {| ScriptSig_Asm := disbuf;
                      ScriptSig_Hex := EncodeToString (SignatureScript txIn) |} |} in
       Some (<[i := vinEntry]> vinList))
    (length done) ins (done ++ rest)
  = Some (done ++ (vin_of <$> ins)).
Proof.
  intros Hlen.
  match goal with |- range_loop_opt ?f _ _ _ = _ => set (body := f) end.
  assert (Hbody : forall i txIn vinList entry,
            vinList !! i = Some entry ->
            body i txIn vinList = Some (<[i := vin_of txIn]> vinList)).
  { intros i txIn vinList entry Hentry. unfold body. cbv zeta.
    rewrite Hentry. reflexivity. }
  clearbody body.
  revert done rest Hlen. induction ins as [|txIn ins IH]; intros done rest Hlen.
  - destruct rest; [|discriminate]. reflexivity.
  - destruct rest as [|entry rest]; [discriminate|]. injection Hlen as Hlen.
    cbn [range_loop_opt].
    rewrite (Hbody _ _ _ entry) by (apply list_lookup_middle; reflexivity).
    cbn [mbind option_bind].
    rewrite insert_app_r_alt, Nat.sub_diag by reflexivity.
    cbn [insert list_insert].
    replace (done ++ vin_of txIn :: rest) with ((done ++ [vin_of txIn]) ++ rest)
      by (rewrite <- app_assoc; reflexivity).
    replace (S (length done)) with (length (done ++ [vin_of txIn]))
      by (rewrite length_app; cbn [length]; lia).
    rewrite (IH _ rest Hlen), fmap_cons, <- app_assoc. reflexivity.
Qed.

Lemma createVinList_map (mtx : MsgTx) :
  createVinList mtx = Some (vin_of <$> MsgTx_TxIn mtx).
Proof.
  unfold createVinList. cbv zeta.
  apply (createVinList_loop (MsgTx_TxIn mtx) []), length_replicate.
Qed.

(** X17: createVinList never panics and returns one entry per input of the
    transaction, in order: entry i carries the previous outpoint's
    transaction id and index, the sequence, and a script signature with the
    disassembly and the hexadecimal text (two digits per byte) of input i's
    signature script. *)
Theorem createVinList_entries (mtx : MsgTx) :
  exists vinList,
    createVinList mtx = Some vinList /\
    length vinList = length (MsgTx_TxIn mtx) /\
    forall i txIn, MsgTx_TxIn mtx !! i = Some txIn ->
      exists sig,
        vinList !! i
        = Some {| Vin_TxID := TxID_String (OutPoint_TxID (PreviousOutpoint txIn));
                  Vin_Vout := OutPoint_Index (PreviousOutpoint txIn);
                  Vin_Sequence := TxIn_Sequence txIn;
                  Vin_ScriptSig := Some sig |} /\
        ScriptSig_Asm sig = DisasmString (SignatureScript txIn) /\
        ScriptSig_Hex sig = EncodeToString (SignatureScript txIn) /\
        String.length (ScriptSig_Hex sig) = (2 * length (SignatureScript txIn))%nat.
Proof.
  exists (vin_of <$> MsgTx_TxIn mtx). split; [apply createVinList_map|].
  split; [apply length_fmap|]. intros i txIn Hi.
  eexists. rewrite list_lookup_fmap, Hi. split; [reflexivity|].
  cbn [ScriptSig_Asm ScriptSig_Hex]. repeat split. apply hex_length.
Qed.

(** *** createVoutList *)

Lemma createVoutList_loop (chainParams : Params) (filterAddrMap : gset string)
    (outs : list TxOut) (i : nat) (acc : list Vout) :
  range_loop
    (fun i v voutList =>
       let disbuf := DisasmString (TxOut_ScriptPubKey v) in
       let '(scriptClass, addr) :=
         ExtractScriptPubKeyAddress (TxOut_ScriptPubKey v) chainParams in
       let passesFilter := bool_decide (size filterAddrMap = 0%nat) in
       let encodedAddr := None in
       let '(encodedAddr, passesFilter) :=
         match addr with
         | Some addr =>
             let encodedAddr := EncodeAddress addr in
             (Some encodedAddr,
              if bool_decide (encodedAddr ∈ filterAddrMap) then true
              else passesFilter)
         | None => (encodedAddr, passesFilter)
         end in
       if negb passesFilter then voutList
       else
         let vout :=
           {| N := wrap32 (Z.of_nat i);
              Value := TxOut_Value v;
              ScriptPubKey :=
                {| Address_ := encodedAddr;
                   Asm := disbuf;
                   Hex := EncodeToString (TxOut_ScriptPubKey v);
                   Type_ := ScriptClass_String scriptClass |} |} in
         voutList ++ [vout])
    i outs acc
  = acc ++ passing_from chainParams filterAddrMap i outs.
Proof.
  revert i acc. induction outs as [|v outs IH]; intros i acc.
  - cbn [range_loop passing_from]. rewrite app_nil_r. reflexivity.
  - cbn [range_loop passing_from]. rewrite IH. clear IH.
    unfold passes, vout_of. cbn [ScriptPubKey Address_].
    destruct (ExtractScriptPubKeyAddress (TxOut_ScriptPubKey v) chainParams)
      as [scriptClass [addr|]]; cbn [fst snd fmap option_fmap option_map].
    + destruct (bool_decide (EncodeAddress addr ∈ filterAddrMap));
        destruct (bool_decide (size filterAddrMap = 0%nat));
        cbn [negb orb]; rewrite <- ?app_assoc; reflexivity.
    + rewrite orb_false_r.
      destruct (bool_decide (size filterAddrMap = 0%nat));
        cbn [negb]; rewrite <- ?app_assoc; reflexivity.
Qed.

Lemma createVoutList_passing (mtx : MsgTx) (chainParams : Params)
    (filterAddrMap : gset string) :
  createVoutList mtx chainParams filterAddrMap
  = passing_from chainParams filterAddrMap 0 (MsgTx_TxOut mtx).
Proof. unfold createVoutList. cbv zeta. apply createVoutList_loop. Qed.

Lemma passing_from_sublist (chainParams : Params) (filterAddrMap : gset string)
    (outs : list TxOut) (i : nat) :
  passing_from chainParams filterAddrMap i outs
    `sublist_of` vouts_from chainParams i outs.
Proof.
  revert i. induction outs as [|v outs IH]; intros i; [constructor|].
  cbn [passing_from vouts_from]. destruct (passes _ _); cbn [app].
  - apply sublist_skip, IH.
  - apply sublist_cons, IH.
Qed.

Lemma passing_from_elem (chainParams : Params) (filterAddrMap : gset string)
    (outs : list TxOut) (i : nat) (vout : Vout) :
  vout ∈ passing_from chainParams filterAddrMap i outs <->
  exists j v, outs !! j = Some v /\ vout = vout_of chainParams (i + j) v /\
              passes filterAddrMap vout = true.
Proof.
  revert i. induction outs as [|v outs IH]; intros i.
  - cbn [passing_from]. rewrite elem_of_nil. split; [tauto|].
    intros (j & w & Hj & _). discriminate.
  - cbn [passing_from]. rewrite elem_of_app, IH. split.
    + intros [Hhere|(j & w & Hj & -> & Hp)].
      * destruct (passes filterAddrMap (vout_of chainParams i v)) eqn:Hp;
          [|apply elem_of_nil in Hhere; tauto].
        apply list_elem_of_singleton in Hhere as ->.
        exists 0%nat, v. rewrite Nat.add_0_r. auto.
      * exists (S j), w. rewrite <- Nat.add_succ_comm. auto.
    + intros ([|j] & w & Hj & -> & Hp).
      * injection Hj as ->. rewrite Nat.add_0_r in *. left. rewrite Hp.
        apply list_elem_of_singleton. reflexivity.
      * right. exists j, w. rewrite Nat.add_succ_comm. auto.
Qed.

Lemma vouts_from_lookup (chainParams : Params) (outs : list TxOut) (i j : nat) :
  vouts_from chainParams i outs !! j = vout_of chainParams (i + j) <$> outs !! j.
Proof.
  revert i j. induction outs as [|v outs IH]; intros i j; [reflexivity|].
  destruct j as [|j]; cbn [vouts_from lookup list_lookup].
  - rewrite Nat.add_0_r. reflexivity.
  - change (vouts_from chainParams (S i) outs !! j
            = vout_of chainParams (i + S j) <$> outs !! j).
    rewrite IH, Nat.add_succ_comm. reflexivity.
Qed.

Lemma length_vouts_from (chainParams : Params) (outs : list TxOut) (i : nat) :
  length (vouts_from chainParams i outs) = length outs.
Proof.
  revert i. induction outs as [|v outs IH]; intros i; [reflexivity|].
  cbn [vouts_from length]. rewrite IH. reflexivity.
Qed.

Lemma passing_from_all (chainParams : Params) (filterAddrMap : gset string)
    (outs : list TxOut) (i : nat) :
  size filterAddrMap = 0%nat ->
  passing_from chainParams filterAddrMap i outs = vouts_from chainParams i outs.
Proof.
  intros Hempty. revert i. induction outs as [|v outs IH]; intros i; [reflexivity|].
  cbn [passing_from vouts_from]. unfold passes at 1.
  rewrite (bool_decide_eq_true_2 (size filterAddrMap = 0%nat)) by exact Hempty.
  cbn [orb app]. rewrite IH.
  reflexivity.
Qed.

(** X18: createVoutList returns, in the order of the outputs, exactly the
    entries of the outputs that pass the filter, each numbered by the
    position of its output in the transaction; with a filter that is not
    empty every returned entry has an address and that address is in the
    filter. *)
Theorem createVoutList_filter (mtx : MsgTx) (chainParams : Params)
    (filterAddrMap : gset string) :
  (forall vout,
     vout ∈ createVoutList mtx chainParams filterAddrMap <->
     exists i v, MsgTx_TxOut mtx !! i = Some v /\ vout = vout_of chainParams i v /\
                 passes filterAddrMap vout = true) /\
  createVoutList mtx chainParams filterAddrMap
    `sublist_of` vouts_from chainParams 0 (MsgTx_TxOut mtx) /\
  (size filterAddrMap <> 0%nat ->
   forall vout, vout ∈ createVoutList mtx chainParams filterAddrMap ->
     exists a, Address_ (ScriptPubKey vout) = Some a /\ a ∈ filterAddrMap).
Proof.
  rewrite createVoutList_passing. split; [|split].
  - intros vout. apply passing_from_elem.
  - apply passing_from_sublist.
  - intros Hsize vout (i & v & _ & _ & Hp)%passing_from_elem.
    unfold passes in Hp.
    rewrite (bool_decide_eq_false_2 (size filterAddrMap = 0%nat)) in Hp
      by exact Hsize.
    cbn [orb] in Hp. destruct (Address_ (ScriptPubKey vout)) as [a|];
      [|discriminate].
    exists a. split; [reflexivity|]. exact (bool_decide_eq_true_1 _ Hp).
Qed.

(** X19: with an empty (or nil) filter createVoutList drops nothing: the
    list has one entry per output, and entry i carries output i's value,
    the index i as a uint32, and the hexadecimal text and the disassembly
    of its script. *)
Theorem createVoutList_no_filter (mtx : MsgTx) (chainParams : Params)
    (filterAddrMap : gset string) :
  size filterAddrMap = 0%nat ->
  length (createVoutList mtx chainParams filterAddrMap)
    = length (MsgTx_TxOut mtx) /\
  forall i v, MsgTx_TxOut mtx !! i = Some v ->
    exists vout,
      createVoutList mtx chainParams filterAddrMap !! i = Some vout /\
      N vout = Z.of_nat i mod 2 ^ 32 /\
      Value vout = TxOut_Value v /\
      Hex (ScriptPubKey vout) = EncodeToString (TxOut_ScriptPubKey v) /\
      Asm (ScriptPubKey vout) = DisasmString (TxOut_ScriptPubKey v).
Proof.
  intros Hempty. rewrite createVoutList_passing, passing_from_all by exact Hempty.
  split.
  - apply length_vouts_from.
  - intros i v Hi. exists (vout_of chainParams i v).
    rewrite vouts_from_lookup, Hi. repeat split.
Qed.

(** *** messageToHex and internalRPCError *)

Lemma internalRPCError_result (errStr context : string) (log : Log) :
  internalRPCError errStr context log
  = (NewRPCError ErrRPCInternal_Code errStr,
     log ++ [if String.eqb context "" then errStr
             else context +:+ ": " +:+ errStr]).
Proof.
  unfold internalRPCError. destruct (String.eqb context ""); reflexivity.
Qed.

(** X20: when the encoder succeeds, messageToHex returns the hexadecimal
    text of the buffer, two digits per byte, with no error and logs
    nothing; when the encoder fails, it returns the empty string and an
    RPC error with the internal-error code and the encoder's message, and
    logs one line that names the message type. *)
Theorem messageToHex_result (msg : MsgTx) (log : Log) :
  (forall buf,
     BtcEncode msg maxProtocolVersion = (buf, None) ->
     messageToHex msg log = (EncodeToString buf, None, log) /\
     String.length (EncodeToString buf) = (2 * length buf)%nat) /\
  (forall buf err,
     BtcEncode msg maxProtocolVersion = (buf, Some err) ->
     messageToHex msg log
     = (""%string, Some {| Code := ErrRPCInternal_Code; Message := err |},
        log ++ ["Failed to encode msg of type " +:+ TypeName msg +:+ ": " +:+ err])).
Proof.
  unfold messageToHex. split.
  - intros buf Henc. rewrite Henc. split; [reflexivity|apply hex_length].
  - intros buf err Henc. rewrite Henc. cbv zeta.
    rewrite internalRPCError_result. reflexivity.
Qed.

(** *** txConfirmations *)

(** X21: txConfirmations returns 0 whenever it returns an error; without a
    transaction index it returns an error; when it returns no error, the
    count is 0 if no block accepted the transaction and otherwise what
    BlockConfirmationsByHash gives for the accepting block. *)
Theorem txConfirmations_cases (s : Server) (txID : TxID) :
  (forall n e, txConfirmations s txID = (n, Some e) -> n = 0) /\
  (cfg_TxIndex s = None -> exists e, txConfirmations s txID = (0, Some e)) /\
  (forall n, txConfirmations s txID = (n, None) ->
     exists txIndex acceptingBlock,
       cfg_TxIndex s = Some txIndex /\
       BlockThatAcceptedTx txIndex (cfg_DAG s) txID = (acceptingBlock, None) /\
       match acceptingBlock with
       | None => n = 0
       | Some b => BlockConfirmationsByHash (cfg_DAG s) b = (n, None)
       end).
Proof.
  unfold txConfirmations. split; [|split].
  - intros n e. destruct (cfg_TxIndex s) as [txIndex|]; [|intros [= <- _]; reflexivity].
    destruct (BlockThatAcceptedTx txIndex (cfg_DAG s) txID) as [[b|] [err|]];
      try (intros [= <- _]; reflexivity); try discriminate.
    destruct (BlockConfirmationsByHash (cfg_DAG s) b) as [c [err|]];
      [intros [= <- _]; reflexivity|discriminate].
  - intros ->. eexists. reflexivity.
  - intros n. destruct (cfg_TxIndex s) as [txIndex|]; [|discriminate].
    destruct (BlockThatAcceptedTx txIndex (cfg_DAG s) txID) as [[b|] [err|]] eqn:Hacc;
      try discriminate.
    + destruct (BlockConfirmationsByHash (cfg_DAG s) b) as [c [err|]] eqn:Hconf;
        [discriminate|].
      intros [= <-]. exists txIndex, (Some b). auto.
    + intros [= <-]. exists txIndex, None. auto.
Qed.

(** *** createTxRawResult *)

(** X22: createTxRawResult never panics; it returns an error exactly when
    the encoder fails, and then no result; otherwise it logs nothing and
    the result has two hexadecimal digits per encoded byte, one Vin per
    input, one Vout per output (no output is filtered), equal Time and
    BlockTime, zero time and empty block hash without a block header, and
    AcceptedBy set exactly when an accepting block is given. *)
Theorem createTxRawResult_result (dagParams : Params) (mtx : MsgTx)
    (txID : string) (blkHeader : option BlockHeader) (blkHash : string)
    (acceptingBlock : option Hash) (confirmations : option Z)
    (isInMempool : bool) (txMass : Z) (log : Log) :
  exists r e log',
    createTxRawResult dagParams mtx txID blkHeader blkHash acceptingBlock
      confirmations isInMempool txMass log = Some (r, e, log') /\
    (is_Some e <-> is_Some (BtcEncode mtx maxProtocolVersion).2) /\
    (is_Some e <-> r = None) /\
    (e = None -> log' = log) /\
    forall txReply, r = Some txReply ->
      String.length (Result_Hex txReply)
        = (2 * length (BtcEncode mtx maxProtocolVersion).1)%nat /\
      length (Result_Vin txReply) = length (MsgTx_TxIn mtx) /\
      length (Result_Vout txReply) = length (MsgTx_TxOut mtx) /\
      Result_Time txReply = Result_BlockTime txReply /\
      (blkHeader = None ->
         Result_Time txReply = 0 /\ Result_BlockHash txReply = ""%string) /\
      Result_AcceptedBy txReply = Hash_String <$> acceptingBlock.
Proof.
  unfold createTxRawResult, messageToHex.
  destruct (BtcEncode mtx maxProtocolVersion) as [buf [err|]]; cbn [fst snd].
  - cbv zeta. rewrite internalRPCError_result.
    do 3 eexists. split; [reflexivity|].
    split; [split; eauto|]. split; [split; eauto|]. split; [discriminate|].
    discriminate.
  - rewrite createVinList_map. cbn [mbind option_bind].
    assert (Hvout : length (createVoutList mtx dagParams ∅)
                    = length (MsgTx_TxOut mtx)).
    { rewrite createVoutList_passing, passing_from_all by apply size_empty.
      apply length_vouts_from. }
    destruct blkHeader as [h|];
    (do 3 eexists; split; [reflexivity|]).
    all: split; [split; intros [? ?]; discriminate|].
    all: split; [split; [intros [? ?]|]; discriminate|].
    all: split; [reflexivity|].
    all: intros txReply [= <-].
    all: cbn [Result_Hex Result_Vin Result_Vout Result_Time Result_BlockTime
              Result_BlockHash Result_AcceptedBy].
    all: split; [apply hex_length|].
    all: split; [apply length_fmap|].
    all: split; [exact Hvout|].
    all: split; [reflexivity|].
    all: split; [intros E; try discriminate E; split; reflexivity|].
    all: destruct acceptingBlock; reflexivity.
Qed.

End rpc_properties.

(** ** Concrete runs *)

(** *** SHA-256 test vectors (FIPS 180-4) *)

Example sha256_abc :
  hex (vec_to_list (sha256.Sum256 (bytes_of_string "abc")))
  = "ba7816bf8f01cfea414140de5dae2223b00361a396177a9cb410ff61f20015ad"%string.
Proof. vm_compute. reflexivity. Qed.

Example sha256_empty :
  hex (vec_to_list (sha256.Sum256 []))
  = "e3b0c44298fc1c149afbf4c8996fb92427ae41e4649b934ca495991b7852b855"%string.
Proof. vm_compute. reflexivity. Qed.

Example sha256_two_blocks :
  hex (vec_to_list (sha256.Sum256 (bytes_of_string
         "abcdbcdecdefdefgefghfghighijhijkijkljklmklmnlmnomnopnopq")))
  = "248d6a61d20638b8e5c026930c3e6039a33ce45964ff2167f6ecedd419db06c1"%string.
Proof. vm_compute. reflexivity. Qed.

Example sha256_32_zero_bytes :
  hex (vec_to_list (sha256.Sum256 (replicate 32 x00)))
  = "66687aadf862bd776c8fc18b8e9f8e20089714856ee233b3902a591d0d5f2925"%string.
Proof. vm_compute. reflexivity. Qed.

Example sha256_4_zero_bytes :
  hex (vec_to_list (sha256.Sum256 (replicate 4 x00)))
  = "df3f619804a92fdb4057192dc43dd748ea778adc52bc498ce80524c014b81119"%string.
Proof. vm_compute. reflexivity. Qed.

(** *** The lookup table *)

Lemma generateHoohashLookupTable_entries_witness :
  exists tbl',
    generateHoohashLookupTable (fun _ => 0) = Some tbl' /\
    tbl' 524288 = table_entry 524288.
Proof.
  apply (generateHoohashLookupTable_entries (fun _ => 0) 524288). lia.
Defined.

Example table_entry_0 : table_entry 0 = 0x66687aadf862bd77.
Proof. vm_compute. reflexivity. Qed.

Example table_entry_middle : table_entry (2 ^ 19) = 0x3ec07f4585ef5c91.
Proof. vm_compute. reflexivity. Qed.

Example table_entry_last : table_entry (2 ^ 20 - 1) = 0xf41b1b0b5baaef11.
Proof. vm_compute. reflexivity. Qed.

(** The entry at index 0 is not the leading 8 bytes of the SHA-256 of the
    4-byte encoding of 0: the code hashes the whole 32-byte seed. *)
Lemma lookupTable_entry_0_not_of_4_bytes :
  exists tbl',
    generateHoohashLookupTable (fun _ => 0) = Some tbl' /\
    tbl' 0 = 0x66687aadf862bd77 /\
    table_entry_of_4_bytes 0 = 0xdf3f619804a92fdb /\
    tbl' 0 <> table_entry_of_4_bytes 0.
Proof.
  destruct (generateHoohashLookupTable_result (fun _ => 0)) as (tbl' & Hrun & Hent).
  exists tbl'. split; [exact Hrun|].
  assert (H0 : tbl' 0 = 0x66687aadf862bd77).
  { rewrite Hent. destruct (decide _) as [_|Hout].
    - vm_compute. reflexivity.
    - exfalso. apply Hout. rewrite tableSize_eq. lia. }
  assert (H4 : table_entry_of_4_bytes 0 = 0xdf3f619804a92fdb)
    by (vm_compute; reflexivity).
  split; [exact H0|]. split; [exact H4|].
  rewrite H0, H4. discriminate.
Qed.

(** *** [toBig] *)

(** The digest 0x01, 0x00 x 31 is the number 1, not 2^248. *)
Lemma toBig_digest_one_not_2_pow_248 :
  toBig digest_one = Some 1 /\ toBig digest_one <> Some (2 ^ 248).
Proof.
  assert (H1 : toBig digest_one = Some 1) by (vm_compute; reflexivity).
  split; [exact H1|]. rewrite H1. discriminate.
Qed.

(** *** The nonce *)

Import doubles.

Lemma IncrementNonce_iter_witness :
  Nonce (Nat.iter 3 IncrementNonce state_last_nonce) = 2 /\
  Target (Nat.iter 3 IncrementNonce state_last_nonce) = Target state_last_nonce.
Proof.
  destruct (IncrementNonce_iter state_last_nonce 3) as (Hn & _ & _ & Ht & _).
  - unfold uint64_range. cbn. lia.
  - split; [rewrite Hn; reflexivity|exact Ht].
Defined.

Example IncrementNonce_wraps :
  Nonce (IncrementNonce state_last_nonce) = 0.
Proof. reflexivity. Qed.

(** *** [CheckProofOfWork] on the test doubles *)

Example work_value_state0 :
  CalculateProofOfWorkValue state0
  = Some 51003254821918615915626436279400354258382771390146175338970745294985148224990.
Proof. vm_compute. reflexivity. Qed.

Example check_largest_target : CheckProofOfWork state0 = Some true.
Proof. vm_compute. reflexivity. Qed.

Example check_zero_target : CheckProofOfWork (state_with_target 0) = Some false.
Proof. vm_compute. reflexivity. Qed.

Example check_target_is_work_value :
  CheckProofOfWork (state_with_target
    51003254821918615915626436279400354258382771390146175338970745294985148224990)
  = Some true.
Proof. vm_compute. reflexivity. Qed.

Example check_target_one_below :
  CheckProofOfWork (state_with_target
    51003254821918615915626436279400354258382771390146175338970745294985148224989)
  = Some false.
Proof. vm_compute. reflexivity. Qed.

(** *** [memoryHardFunction] *)

Lemma memoryHardFunction_leading_bytes_witness :
  memoryHardFunction (replicate 8 x07 ++ [x01])
  = memoryHardFunction (replicate 8 x07 ++ [x02; x03]).
Proof.
  apply (memoryHardFunction_leading_bytes
           (replicate 8 x07 ++ [x01]) (replicate 8 x07 ++ [x02; x03]));
    [cbn; lia|cbn; lia|reflexivity].
Defined.

(** *** The rev2 variant on the test doubles *)

Example rev2_state0 :
  CalculateProofOfWorkValueHoohashRev2 (fun _ => 0) state0
  = Some 52897139992727322656636483202955851728595723140541065915676634695480410456755.
Proof. vm_compute. reflexivity. Qed.

(** *** Machine integers *)

Example wrap_int_below_min : wrap_int (- 2 ^ 63 - 5) = 2 ^ 63 - 5.
Proof. reflexivity. Qed.

Example BitLen_examples :
  big.BitLen 0 = 0 /\ big.BitLen 1 = 1 /\ big.BitLen 255 = 8 /\
  big.BitLen (2 ^ 248) = 249.
Proof. repeat split. Qed.

Example Bytes_examples :
  big.Bytes 0 = [] /\ big.Bytes 256 = [x01; x00] /\ big.SetBytes [x00; x01; x00] = 256.
Proof. repeat split. Qed.

(** *** [timeMemoryTradeoff] *)

Lemma timeMemoryTradeoff_uint64_witness :
  uint64_range (timeMemoryTradeoff (fun _ => 2 ^ 64 - 1) (2 ^ 64 - 1)).
Proof.
  apply (timeMemoryTradeoff_uint64 (fun _ => 2 ^ 64 - 1) (2 ^ 64 - 1)).
  - intros k _. unfold uint64_range. lia.
  - unfold uint64_range. lia.
Defined.

Lemma timeMemoryTradeoff_reads_in_bounds_witness :
  timeMemoryTradeoff (fun _ => 7) 5
  = timeMemoryTradeoff (fun k => if k <? tableSize then 7 else 0) 5.
Proof.
  apply (timeMemoryTradeoff_reads_in_bounds
           (fun _ => 7) (fun k => if k <? tableSize then 7 else 0) 5).
  intros k [_ Hk]. apply Z.ltb_lt in Hk. rewrite Hk. reflexivity.
Defined.

(** Over a table of zeros the 1000 rounds are 1000 rotations by one bit,
    that is a rotation by 1000 mod 64 = 40 bits. *)
Example timeMemoryTradeoff_zero_table :
  timeMemoryTradeoff (fun _ => 0) 1 = 2 ^ 40.
Proof. vm_compute. reflexivity. Qed.

(** *** [verifiableDelayFunction] *)

Lemma verifiableDelayFunction_collisions_witness :
  verifiableDelayFunction [x01]
  = verifiableDelayFunction (big.Bytes (2 ^ 256 - 2 ^ 32 - 978)).
Proof.
  apply (verifiableDelayFunction_collisions
           [x01] (big.Bytes (2 ^ 256 - 2 ^ 32 - 978))).
  right. vm_compute. reflexivity.
Defined.

Example verifiableDelayFunction_of_one :
  verifiableDelayFunction [x01] = Some (vec_to_list (sha256.Sum256 [x01])).
Proof. vm_compute. reflexivity. Qed.

(** *** The target *)

Lemma CheckProofOfWork_monotone_witness :
  CheckProofOfWork (state_with_target
    51003254821918615915626436279400354258382771390146175338970745294985148224995)
  = Some true.
Proof.
  apply (CheckProofOfWork_monotone
    (state_with_target
       51003254821918615915626436279400354258382771390146175338970745294985148224990)
    (state_with_target
       51003254821918615915626436279400354258382771390146175338970745294985148224995));
    [reflexivity|reflexivity|reflexivity|reflexivity| |].
  - cbn [Target state_with_target]. lia.
  - vm_compute. reflexivity.
Defined.

Lemma IncrementNonce_no_repeat_witness :
  Nonce (Nat.iter 1 IncrementNonce state_last_nonce)
  <> Nonce (Nat.iter 3 IncrementNonce state_last_nonce).
Proof.
  apply (IncrementNonce_no_repeat state_last_nonce 1 3).
  - unfold uint64_range. cbn. lia.
  - lia.
  - lia.
Defined.

Lemma BlockLevel_bounds_witness :
  exists level tbl',
    BlockLevel header0 225 (fun _ => 0) = Some (level, tbl') /\
    225 - 256 <= level <= Z.max 0 225 /\
    (length (externalapi.DirectParents header0) = 0%nat -> tbl' = fun _ => 0) /\
    (length (externalapi.DirectParents header0) <> 0%nat ->
       generateHoohashLookupTable (fun _ => 0) = Some tbl').
Proof.
  apply (BlockLevel_bounds header0 225 (fun _ => 0)). lia.
Defined.

(** *** The layout of [memoryHardFunction] *)

Lemma memoryHardFunction_layout_witness :
  exists memory out,
    mhf_initialize (replicate 8 x07 ++ [x01]) ≫= mhf_mix = Some memory /\
    length memory = 1024%nat /\
    Forall uint64_range memory /\
    memoryHardFunction (replicate 8 x07 ++ [x01]) = Some out /\
    out = words_le (take 8 memory) /\
    forall i w, (i < 8)%nat -> memory !! i = Some w ->
      binary.LittleEndian_Uint64 (drop (i * 8) out) = Some w.
Proof.
  apply (memoryHardFunction_layout (replicate 8 x07 ++ [x01])). cbn. lia.
Defined.

Example memoryHardFunction_short_input :
  memoryHardFunction (replicate 7 x07) = None.
Proof. reflexivity. Qed.

(** *** [Less] *)

Example Less_examples :
  subnetworks.Less [# x00; xff] [# x01; x00] = true /\
  subnetworks.Less [# x01; x00] [# x00; xff] = false /\
  subnetworks.Less [# x80; x00] [# x80; x00] = false /\
  subnetworks.Less [# x7f; xff] [# x80; x00] = true.
Proof. repeat split. Qed.

(** *** The JSON objects of a transaction *)

Import rpc_doubles.

Lemma createVoutList_no_filter_witness :
  length (rpc.createVoutList tx0 tt ∅) = length (rpc.MsgTx_TxOut tx0) /\
  forall i v, rpc.MsgTx_TxOut tx0 !! i = Some v ->
    exists vout,
      rpc.createVoutList tx0 tt ∅ !! i = Some vout /\
      rpc.N vout = Z.of_nat i mod 2 ^ 32 /\
      rpc.Value vout = rpc.TxOut_Value v /\
      rpc.Hex (rpc.ScriptPubKey vout) = rpc.EncodeToString (rpc.TxOut_ScriptPubKey v) /\
      rpc.Asm (rpc.ScriptPubKey vout) = rpc.DisasmString (rpc.TxOut_ScriptPubKey v).
Proof.
  apply (createVoutList_no_filter tx0 tt ∅). reflexivity.
Defined.

Example createVoutList_tx0_only_bb :
  rpc.createVoutList tx0 tt {["bb"%string]}
  = [ {| rpc.Value := 30; rpc.N := 2;
         rpc.ScriptPubKey :=
           {| rpc.Asm := "bb"; rpc.Hex := "bb"; rpc.Type_ := "pubkeyhash";
              rpc.Address_ := Some "bb"%string |} |} ].
Proof. vm_compute. reflexivity. Qed.

Example createVinList_tx0 :
  rpc.createVinList tx0
  = Some [ {| rpc.Vin_TxID := "prev"; rpc.Vin_Vout := 7;
              rpc.Vin_Sequence := 2 ^ 64 - 1;
              rpc.Vin_ScriptSig :=
                Some {| rpc.ScriptSig_Asm := "5152"; rpc.ScriptSig_Hex := "5152" |} |} ].
Proof. reflexivity. Qed.

Example messageToHex_tx0 :
  rpc.messageToHex tx0 [] = ("010203"%string, None, []).
Proof. reflexivity. Qed.

Example wrap_int32_above_max : wrap_int32 (2 ^ 31 + 5) = - 2 ^ 31 + 5.
Proof. reflexivity. Qed.
